(** * SubTrans-Ollama: the subtitle codec and the batch translation driver

    A shallow embedding of [src/app.py]: [parse_srt], [write_srt],
    [translate_to_persian] and [translate_subtitles], with the Python
    built-ins they call ([str.strip], [str.split], [str.join],
    [re.split], [range], text-mode file objects).

    A Python [str] is a sequence of Unicode code points: here a list of
    [N].  The UTF-8 codec of the file objects is a bijection on the
    scalar values, so a file is represented by its decoded text. *)

From Stdlib Require Import ZArith NArith QArith List Lia Bool String Ascii.
From stdpp Require Import base list numbers list_numbers functions.

Open Scope Z_scope.

(** ** Python strings *)

Module Py.

Definition NL : N := 10%N.
Definition CR : N := 13%N.
Definition SP : N := 32%N.

Definition is_nl (c : N) : bool := N.eqb c NL.

(** [str.isspace] on one code point: the characters Python's [str.strip]
    removes when called without an argument. *)
Definition isspace (c : N) : bool :=
  ((9 <=? c) && (c <=? 13) || (28 <=? c) && (c <=? 32)
   || (c =? 133) || (c =? 160) || (c =? 5760)
   || (8192 <=? c) && (c <=? 8202)
   || (c =? 8232) || (c =? 8233) || (c =? 8239) || (c =? 8287)
   || (c =? 12288))%N.

(** A string literal of the development, as code points. *)
Definition lit (s : string) : list N :=
  map N_of_ascii (list_ascii_of_string s).

Fixpoint dropwhile {A} (p : A -> bool) (s : list A) : list A :=
  match s with
  | [] => []
  | c :: rest => if p c then dropwhile p rest else s
  end.

Definition lstrip (s : list N) : list N := dropwhile isspace s.
Definition rstrip (s : list N) : list N := rev (dropwhile isspace (rev s)).
(** [s.strip()] *)
Definition strip (s : list N) : list N := rstrip (lstrip s).

(** Prepend a character to the first piece of a split. *)
Definition cons_head (c : N) (ps : list (list N)) : list (list N) :=
  match ps with
  | [] => [[c]]
  | p :: ps' => (c :: p) :: ps'
  end.

(** [s.split('\n')]: one piece per newline, plus one. *)
Fixpoint split_nl (s : list N) : list (list N) :=
  match s with
  | [] => [[]]
  | c :: rest =>
      if is_nl c then [] :: split_nl rest
      else cons_head c (split_nl rest)
  end.

Definition head_is_nl (s : list N) : bool :=
  match s with
  | c :: _ => is_nl c
  | [] => false
  end.

(** [re.split(r'\n\n+', s)]: the matches are the maximal runs of two or
    more newlines, found from the left; [insep] says that the scan is
    inside such a run. *)
Fixpoint re_split_blank_from (insep : bool) (s : list N) : list (list N) :=
  match s with
  | [] => [[]]
  | c :: rest =>
      if is_nl c then
        if insep then re_split_blank_from true rest
        else if head_is_nl rest then [] :: re_split_blank_from true rest
        else cons_head c (re_split_blank_from false rest)
      else cons_head c (re_split_blank_from false rest)
  end.

Definition re_split_blank (s : list N) : list (list N) :=
  re_split_blank_from false s.

(** [sep.join(pieces)] *)
Fixpoint join (sep : list N) (pieces : list (list N)) : list N :=
  match pieces with
  | [] => []
  | [p] => p
  | p :: ps => p ++ sep ++ join sep ps
  end.

(** Text-mode files ([newline=None]).  Writing turns every ['\n'] into
    [os.linesep]; reading turns ['\r\n'] and a lone ['\r'] into ['\n']. *)
Inductive platform := Posix | Windows.

Definition linesep (p : platform) : list N :=
  match p with
  | Posix => [NL]
  | Windows => [CR; NL]
  end.

Definition write_text (p : platform) (s : list N) : list N :=
  flat_map (fun c => if is_nl c then linesep p else [c]) s.

Fixpoint read_text (s : list N) : list N :=
  match s with
  | [] => []
  | c :: rest =>
      if N.eqb c CR then
        NL :: match rest with
              | d :: rest' => if is_nl d then read_text rest' else read_text rest
              | [] => []
              end
      else c :: read_text rest
  end.

End Py.

Import Py.

(** ** The subtitle codec *)

(** A subtitle dictionary: the keys ['id'], ['timestamp'] and ['text']. *)
Record subtitle := Subtitle {
  sub_id : list N;
  sub_timestamp : list N;
  sub_text : list N
}.

(** The lines of one block, as [parse_srt] takes them. *)
Definition block_lines (block : list N) : list (list N) :=
  split_nl (strip block).

(** The body of the loop of [parse_srt]: what one block appends. *)
Definition parse_block (block : list N) : list subtitle :=
  let lines := block_lines block in
  if (3 <=? length lines)%nat then
    [Subtitle (nth 0 lines []) (nth 1 lines []) (join [NL] (skipn 2 lines))]
  else [].

Definition subtitle_blocks (content : list N) : list (list N) :=
  re_split_blank (strip content).

(** [parse_srt], on the text that [f.read()] returns. *)
Definition parse_content (content : list N) : list subtitle :=
  flat_map parse_block (subtitle_blocks content).

(** [parse_srt], on the stored file. *)
Definition parse_srt (file : list N) : list subtitle :=
  parse_content (read_text file).

(** What the three [f.write] calls of [write_srt] write for the record
    at position [i]. *)
Definition write_entry (i : nat) (sub : subtitle) : list N :=
  (if (0 <? i)%nat then [NL] else [])
  ++ (sub_id sub ++ [NL])
  ++ (sub_timestamp sub ++ [NL])
  ++ (sub_text sub ++ [NL]).

Definition write_content (subtitles : list subtitle) : list N :=
  concat (imap write_entry subtitles).

(** [write_srt]: the stored file. *)
Definition write_srt (p : platform) (subtitles : list subtitle) : list N :=
  write_text p (write_content subtitles).

(** ** Python control: exceptions, [range], indexing *)

Inductive exn := ValueError | IndexError.

(** [range(start, stop)] *)
Definition range (start stop : Z) : list Z := seqZ start (stop - start).

(** [range(start, stop, step)]; a zero step raises [ValueError]. *)
Definition range_step (start stop step : Z) : exn + list Z :=
  if step =? 0 then inl ValueError
  else if 0 <? step then
    inr (map (fun k => start + k * step)
             (seqZ 0 ((stop - start + step - 1) / step)))
  else
    inr (map (fun k => start + k * step)
             (seqZ 0 ((start - stop - step - 1) / (- step)))).

(** [l[i]]: a negative index counts from the end, an index out of range
    raises [IndexError]. *)
Definition getitem {A} (l : list A) (i : Z) : exn + A :=
  let n := Z.of_nat (length l) in
  let j := if i <? 0 then i + n else i in
  if (j <? 0) || (n <=? j) then inl IndexError
  else match l !! Z.to_nat j with
       | Some x => inr x
       | None => inl IndexError
       end.

(** ** The translation client and the driver *)

Inductive role := System | User | Assistant.

Record message := Message { msg_role : role; msg_content : list N }.

(** An element of [previous_context]: the keys ["original"] and
    ["translated"]. *)
Record context_pair := ContextPair {
  original : list N;
  translated : list N
}.

(** What the run does to its environment, in order. *)
Inductive event :=
| EChat (model : list N) (messages : list message)
        (response : option (list N))        (* chat(model=..., messages=...) *)
| EError                                    (* st.error *)
| EPlaceholder                              (* st.empty() *)
| EPreview (line total : Z) (id timestamp original_text translated_text : list N)
| EProgress (done total : Z)                (* progress_bar.progress *)
| ESleep (delay : Q)                        (* time.sleep(delay) *)
| EClear.                                   (* preview_container.empty() *)

(** The store of dictionary objects, by identity, and the trace. *)
Record world := World {
  heap : nat -> subtitle;
  log : list event
}.

Definition M (A : Type) : Type := world -> exn + (A * world).

Definition ret {A} (a : A) : M A := fun w => inr (a, w).

Definition bind {A B} (m : M A) (k : A -> M B) : M B :=
  fun w => match m w with
           | inl e => inl e
           | inr (a, w') => k a w'
           end.

Definition lift {A} (r : exn + A) : M A :=
  fun w => match r with
           | inl e => inl e
           | inr a => inr (a, w)
           end.

Definition emit (e : event) : M unit :=
  fun w => inr (tt, World (heap w) (log w ++ [e])).

(** [d[key]] for the dictionary object [d]. *)
Definition read {A} (field : subtitle -> A) (d : nat) : M A :=
  fun w => inr (field (heap w d), w).

Definition set_text (t : list N) (d : subtitle) : subtitle :=
  Subtitle (sub_id d) (sub_timestamp d) t.

(** [d['text'] = t] *)
Definition write_text_field (d : nat) (t : list N) : M unit :=
  fun w => inr (tt, World (<[d := set_text t (heap w d)]> (heap w)) (log w)).

Notation "x <- m ;; k" := (bind m (fun x => k))
  (at level 100, m at next level, right associativity).
Notation "m ;;; k" := (bind m (fun _ => k))
  (at level 100, right associativity).

(** [time.sleep(delay)]: a negative delay raises [ValueError].  The
    delay is a rational number; the floats that are no number or
    infinite, which [time.sleep] refuses too, are not represented. *)
Definition sleep (delay : Q) : M unit :=
  fun w => if Qle_bool 0 delay
           then inr (tt, World (heap w) (log w ++ [ESleep delay]))
           else inl ValueError.

Fixpoint for_each {A} (xs : list A) (body : A -> M unit) : M unit :=
  match xs with
  | [] => ret tt
  | x :: xs' => body x ;;; for_each xs' body
  end.

(** A loop that appends one element per iteration to a fresh list. *)
Fixpoint collect {A B} (xs : list A) (body : A -> M B) : M (list B) :=
  match xs with
  | [] => ret []
  | x :: xs' => b <- body x ;; bs <- collect xs' body ;; ret (b :: bs)
  end.

Definition SYSTEM_PROMPT : list N :=
  [1588; 1605; 1575; 32; 1740; 1705; 32; 1605; 1578; 1585; 1580; 1605; 32;
   1583; 1602; 1740; 1602; 32; 1601; 1575; 1585; 1587; 1740; 32; 1607;
   1587; 1578; 1740; 1583; 46; 32; 1605; 1578; 1606; 32; 1585; 1575; 32;
   1576; 1607; 32; 1601; 1575; 1585; 1587; 1740; 32; 1585; 1608; 1586;
   1605; 1585; 1607; 32; 1608; 32; 1605; 1581; 1575; 1608; 1585; 1607;
   8204; 1575; 1740; 32; 1705; 1607; 32; 1578; 1608; 1587; 1591; 32; 1601;
   1575; 1585; 1587; 1740; 8204; 1586; 1576; 1575; 1606; 1575; 1606; 32;
   1575; 1587; 1578; 1601; 1575; 1583; 1607; 32; 1605; 1740; 8204; 1588;
   1608; 1583; 32; 1578; 1585; 1580; 1605; 1607; 32; 1705; 1606; 1740;
   1583; 46; 32; 1575; 1586; 32; 1575; 1589; 1591; 1604; 1575; 1581; 1575;
   1578; 32; 1591; 1576; 1740; 1593; 1740; 32; 1601; 1575; 1585; 1587;
   1740; 32; 1608; 32; 1604; 1581; 1606; 32; 1711; 1601; 1578; 1711; 1608;
   1740; 1740; 32; 1575; 1587; 1578; 1601; 1575; 1583; 1607; 32; 1705;
   1606; 1740; 1583; 32; 1608; 32; 1575; 1586; 32; 1578; 1585; 1580; 1605;
   1607; 8204; 1607; 1575; 1740; 32; 1585; 1587; 1605; 1740; 32; 1740;
   1575; 32; 1578; 1581; 1578; 8204; 1575; 1604; 1604; 1601; 1592; 1740;
   32; 1582; 1608; 1583; 1583; 1575; 1585; 1740; 32; 1705; 1606; 1740;
   1583; 46; 32; 1578; 1585; 1580; 1605; 1607; 8204; 1607; 1575; 1740; 32;
   1588; 1605; 1575; 32; 1576; 1575; 1740; 1583; 32; 1591; 1608; 1585;
   1740; 32; 1576; 1575; 1588; 1583; 32; 1705; 1607; 32; 1575; 1606; 1711;
   1575; 1585; 32; 1575; 1586; 32; 1575; 1576; 1578; 1583; 1575; 32; 1576;
   1607; 32; 1601; 1575; 1585; 1587; 1740; 32; 1606; 1608; 1588; 1578;
   1607; 32; 1588; 1583; 1607; 32; 1575; 1587; 1578; 46; 32; 1601; 1602;
   1591; 32; 1578; 1585; 1580; 1605; 1607; 32; 1601; 1575; 1585; 1587;
   1740; 32; 1585; 1575; 32; 1582; 1585; 1608; 1580; 1740; 32; 1583; 1607;
   1740; 1583; 32; 45; 32; 1576; 1583; 1608; 1606; 32; 1578; 1608; 1590;
   1740; 1581; 1575; 1578; 1548; 32; 1740; 1575; 1583; 1583; 1575; 1588;
   1578; 8204; 1607; 1575; 32; 1740; 1575; 32; 1605; 1578; 1606; 32; 1575;
   1589; 1604; 1740; 46]%N.

(** [f'translate this subtitle to Persian: "{text}"'] *)
Definition instruction (text : list N) : list N :=
  lit "translate this subtitle to Persian: " ++ [34%N] ++ text ++ [34%N].

Definition context_turns (previous_context : list context_pair) : list message :=
  flat_map (fun prev => [Message User (instruction (original prev));
                         Message Assistant (translated prev)])
           previous_context.

Definition build_messages (text : list N) (previous_context : list context_pair)
  : list message :=
  [Message System SYSTEM_PROMPT]
  ++ (match previous_context with
      | [] => []
      | _ => context_turns previous_context
      end)
  ++ [Message User (instruction text)].

(** The context window of [translate_subtitles]: the indices [j] of
    the two loops that fill [previous_context]. *)
Definition context_indices (context_size batch_start idx : Z) : list Z :=
  if (idx =? batch_start) && (0 <? batch_start) then
    range (Z.max 0 (batch_start - context_size)) batch_start
  else
    range (Z.max batch_start (idx - context_size)) idx.

Section Driver.

(** The generation service: its answer to a request, given everything
    that happened before.  [None] stands for a failure of the call that
    the handler [except Exception] catches: the service cannot be
    reached, it times out, its response is malformed.  What that
    handler does not catch (a [KeyboardInterrupt], a [SystemExit]) ends
    the program and is not modelled. *)
Variable chat : list event -> list N -> list message -> option (list N).

Definition translate_to_persian (text model : list N)
    (previous_context : list context_pair) : M (list N) :=
  fun w =>
    let messages := build_messages text previous_context in
    let response := chat (log w) model messages in
    match response with
    | Some content =>
        inr (strip content,
             World (heap w) (log w ++ [EChat model messages response]))
    | None =>
        inr (text,
             World (heap w) (log w ++ [EChat model messages response; EError]))
    end.

(** One iteration of the inner loop of [translate_subtitles]. *)
Definition translate_item (subtitles translated_subtitles : list nat)
    (model : list N) (context_size : Z) (progress_bar : bool)
    (batch_start idx : Z) : M unit :=
  d <- lift (getitem subtitles idx) ;;
  current_subtitle <- read sub_text d ;;
  previous_context <-
    collect (context_indices context_size batch_start idx)
      (fun j =>
         s <- lift (getitem subtitles j) ;;
         o <- read sub_text s ;;
         t <- lift (getitem translated_subtitles j) ;;
         tr <- read sub_text t ;;
         ret (ContextPair o tr)) ;;
  translated_text <- translate_to_persian current_subtitle model previous_context ;;
  t <- lift (getitem translated_subtitles idx) ;;
  write_text_field t translated_text ;;;
  d' <- lift (getitem subtitles idx) ;;
  i <- read sub_id d' ;;
  d'' <- lift (getitem subtitles idx) ;;
  ts <- read sub_timestamp d'' ;;
  emit (EPreview (idx + 1) (Z.of_nat (length subtitles)) i ts
                 current_subtitle translated_text) ;;;
  if progress_bar
  then emit (EProgress (idx + 1) (Z.of_nat (length subtitles)))
  else ret tt.

Definition translate_batch (subtitles translated_subtitles : list nat)
    (model : list N) (context_size batch_size : Z) (delay : Q)
    (progress_bar : bool) (batch_start : Z) : M unit :=
  let batch_end := Z.min (batch_start + batch_size) (Z.of_nat (length subtitles)) in
  for_each (range batch_start batch_end)
    (translate_item subtitles translated_subtitles model context_size
                    progress_bar batch_start) ;;;
  if batch_end <? Z.of_nat (length subtitles)
  then sleep delay
  else ret tt.

(** [translate_subtitles]: the lists hold the identities of the
    dictionary objects; [subtitles.copy()] is a new list of the same
    objects. *)
Definition translate_subtitles (subtitles : list nat) (model : list N)
    (context_size batch_size : Z) (delay : Q) (progress_bar : bool)
  : M (list nat) :=
  let translated_subtitles := subtitles in
  emit EPlaceholder ;;;
  batch_starts <- lift (range_step 0 (Z.of_nat (length subtitles)) batch_size) ;;
  for_each batch_starts
    (translate_batch subtitles translated_subtitles model context_size
                     batch_size delay progress_bar) ;;;
  emit EClear ;;;
  ret translated_subtitles.

(** *** The run in closed form

    What one iteration, one batch and the whole run make of the world
    when no pause fails; the proofs show that, for a delay that is not
    negative, the loops above compute exactly these. *)

(** The object at position [i] of a list. *)
Definition obj (subtitles : list nat) (i : Z) : nat :=
  default 0%nat (subtitles !! Z.to_nat i).

(** The pairs read for the positions [js]: both keys are read from the
    same object. *)
Definition context_of (h : nat -> subtitle) (subtitles : list nat)
    (js : list Z) : list context_pair :=
  map (fun j => ContextPair (sub_text (h (obj subtitles j)))
                            (sub_text (h (obj subtitles j)))) js.

(** What [translate_to_persian] returns for a response. *)
Definition outcome (response : option (list N)) (text : list N) : list N :=
  match response with
  | Some content => strip content
  | None => text
  end.

Definition item_world (subtitles : list nat) (model : list N)
    (context_size : Z) (progress_bar : bool) (batch_start : Z)
    (w : world) (idx : Z) : world :=
  let d := obj subtitles idx in
  let current_subtitle := sub_text (heap w d) in
  let messages :=
    build_messages current_subtitle
      (context_of (heap w) subtitles
                  (context_indices context_size batch_start idx)) in
  let response := chat (log w) model messages in
  let translated_text := outcome response current_subtitle in
  World (<[d := set_text translated_text (heap w d)]> (heap w))
        (log w
         ++ [EChat model messages response]
         ++ (match response with Some _ => [] | None => [EError] end)
         ++ [EPreview (idx + 1) (Z.of_nat (length subtitles))
                      (sub_id (heap w d)) (sub_timestamp (heap w d))
                      current_subtitle translated_text]
         ++ (if progress_bar
             then [EProgress (idx + 1) (Z.of_nat (length subtitles))]
             else [])).

Definition batch_world (subtitles : list nat) (model : list N)
    (context_size batch_size : Z) (delay : Q) (progress_bar : bool)
    (w : world) (batch_start : Z) : world :=
  let batch_end := Z.min (batch_start + batch_size) (Z.of_nat (length subtitles)) in
  let w' := fold_left (item_world subtitles model context_size progress_bar
                                  batch_start)
                      (range batch_start batch_end) w in
  if batch_end <? Z.of_nat (length subtitles)
  then World (heap w') (log w' ++ [ESleep delay])
  else w'.

Definition run_world (subtitles : list nat) (model : list N)
    (context_size batch_size : Z) (delay : Q) (progress_bar : bool)
    (batch_starts : list Z) (w : world) : world :=
  let w' := fold_left (batch_world subtitles model context_size batch_size
                                   delay progress_bar)
                      batch_starts
                      (World (heap w) (log w ++ [EPlaceholder])) in
  World (heap w') (log w' ++ [EClear]).

End Driver.

(** ** The codec as the specification words it *)

Definition is_empty {A} (l : list A) : bool :=
  match l with
  | [] => true
  | _ => false
  end.

(** The non-empty lines of a block after trimming. *)
Definition nonempty_lines (block : list N) : list (list N) :=
  List.filter (fun l => negb (is_empty l)) (split_nl (strip block)).

(** A block with at least three non-empty lines gives a record, any
    other block gives nothing. *)
Definition spec_parse_block (block : list N) : list subtitle :=
  let lines := nonempty_lines block in
  if (3 <=? length lines)%nat then
    [Subtitle (nth 0 lines []) (nth 1 lines []) (join [NL] (skipn 2 lines))]
  else [].

Definition head_space (s : list N) : bool :=
  match s with
  | c :: _ => isspace c
  | [] => false
  end.

(** A line is blank when it holds nothing but white space. *)
Definition blank_line_free (text : list N) : bool :=
  forallb (fun l => negb (forallb isspace l)) (split_nl text).

(** No line of the text is empty. *)
Definition lines_nonempty (text : list N) : bool :=
  forallb (fun l => negb (is_empty l)) (split_nl text).

Definition no_cr (s : list N) : bool :=
  forallb (fun c => negb (N.eqb c CR)) s.

Definition no_nl (s : list N) : bool :=
  forallb (fun c => negb (is_nl c)) s.

(** The records that the codec writes and reads back unchanged. *)
Definition id_ok (s : list N) : bool :=
  negb (is_empty s) && no_nl s && no_cr s && negb (head_space s).

Definition timestamp_ok (s : list N) : bool :=
  negb (is_empty s) && no_nl s && no_cr s.

Definition text_ok (s : list N) : bool :=
  lines_nonempty s && no_cr s && negb (head_space (rev s)).

Definition record_ok (r : subtitle) : bool :=
  id_ok (sub_id r) && timestamp_ok (sub_timestamp r) && text_ok (sub_text r).

(** No newline of the string is followed by a newline or by the end. *)
Fixpoint block_ok (s : list N) : bool :=
  match s with
  | [] => true
  | c :: rest =>
      if is_nl c then negb (is_empty rest) && negb (head_is_nl rest) && block_ok rest
      else block_ok rest
  end.

(** No two newlines of the string are adjacent. *)
Fixpoint nn_free (s : list N) : bool :=
  match s with
  | [] => true
  | c :: rest => negb (is_nl c && head_is_nl rest) && nn_free rest
  end.

(** The three lines of a record, without the final newline. *)
Definition block_of (r : subtitle) : list N :=
  sub_id r ++ NL :: sub_timestamp r ++ NL :: sub_text r.

(** ** The run as the specification words it *)

(** The number of batches of [n] items. *)
Definition batch_count (n bs : Z) : Z := (n + bs - 1) / bs.

(** The requests of a trace, in order: model, messages and response. *)
Definition chats (lg : list event)
  : list (list N * list message * option (list N)) :=
  flat_map (fun e => match e with
                     | EChat model messages response => [(model, messages, response)]
                     | _ => []
                     end) lg.

(** No identifier and no timestamp of the store has changed. *)
Definition same_keys (w0 w : world) : Prop :=
  forall d, sub_id (heap w d) = sub_id (heap w0 d)
            /\ sub_timestamp (heap w d) = sub_timestamp (heap w0 d).

(** The messages of the request for position [i], when the texts of
    the records before it are those of the store [h] and its own text
    is that of the store [h0]. *)
Definition request_of (subtitles : list nat) (context_size batch_size : Z)
    (h0 h : nat -> subtitle) (i : Z) : list message :=
  build_messages (sub_text (h0 (obj subtitles i)))
    (context_of h subtitles
       (context_indices context_size (i / batch_size * batch_size) i)).

(** The state of a run that has translated the first [k] records:
    the later records still hold their text, and [calls] are the [k]
    requests made, each with the text its record now holds. *)
Definition calls_ok (subtitles : list nat) (model : list N)
    (context_size batch_size : Z) (w0 : world)
    (calls : list (list N * list message * option (list N)))
    (k : Z) (w : world) : Prop :=
  (forall i, k <= i < Z.of_nat (length subtitles) ->
     sub_text (heap w (obj subtitles i)) = sub_text (heap w0 (obj subtitles i)))
  /\ chats (log w) = chats (log w0) ++ calls
  /\ length calls = Z.to_nat k
  /\ (forall i, 0 <= i < k ->
        exists response,
          calls !! Z.to_nat i
          = Some (model,
                  request_of subtitles context_size batch_size
                             (heap w0) (heap w) i,
                  response)
          /\ sub_text (heap w (obj subtitles i))
             = outcome response (sub_text (heap w0 (obj subtitles i)))).

(** The schedule of a run: the items completed and the pauses. *)
Inductive mark :=
| Item (line : Z)        (* the preview of line [line] (counted from 1) *)
| Pause (delay : Q).     (* the cooling pause *)

Definition marks (lg : list event) : list mark :=
  flat_map (fun e => match e with
                     | EPreview line _ _ _ _ _ => [Item line]
                     | ESleep delay => [Pause delay]
                     | _ => []
                     end) lg.

Definition is_pause (m : mark) : bool :=
  match m with
  | Pause _ => true
  | Item _ => false
  end.

Definition pauses (ms : list mark) : nat := length (List.filter is_pause ms).

(** The schedule in the words of the specification: the batches in
    order, each followed by a pause unless it is the final one. *)
Definition spec_schedule (n batch_size : Z) (delay : Q) : list mark :=
  flat_map
    (fun k =>
       map Item (seqZ (k * batch_size + 1)
                      (Z.min batch_size (n - k * batch_size)))
       ++ (if k + 1 <? batch_count n batch_size then [Pause delay] else []))
    (seqZ 0 (batch_count n batch_size)).

(** A list of integers in strictly increasing order. *)
Definition increasing (l : list Z) : Prop :=
  forall (p q : nat) x y,
    (p < q)%nat -> l !! p = Some x -> l !! q = Some y -> x < y.

(** ** Concrete inputs *)

(** A store of three records, a service that fails on its second
    request and answers every other one, and a service that answers
    every request. *)
Definition demo_heap : nat -> subtitle :=
  fun d => match d with
           | 0%nat => Subtitle (lit "1") (lit "00:00:01,000 --> 00:00:02,000") (lit "Hello")
           | 1%nat => Subtitle (lit "2") (lit "00:00:03,000 --> 00:00:04,000") (lit "World")
           | _ => Subtitle (lit "3") (lit "00:00:05,000 --> 00:00:06,000") (lit "Bye")
           end.

Definition demo_world : world := World demo_heap [].

Definition flaky_chat (lg : list event) (model : list N)
    (messages : list message) : option (list N) :=
  if (length (chats lg) =? 1)%nat then None else Some (lit " Salam ").

Definition steady_chat (lg : list event) (model : list N)
    (messages : list message) : option (list N) :=
  Some (lit "Salam").

(** The separator between two written records. *)
Definition blank : list N := [NL; NL].

(** The two-line input of the specification's example. *)
Definition two_line_input : list N :=
  lit "1" ++ [NL] ++ lit "00:00:01,000 --> 00:00:02,000" ++ [NL].

(** A record whose text ends with a space. *)
Definition trailing_space_record : subtitle :=
  Subtitle (lit "1") (lit "00:00:01,000 --> 00:00:02,000") (lit "Hi ").

(** ** Slices and context chunks *)

(** A bound of a slice: a negative one counts from the end, and both
    are clamped to the list. *)
Definition slice_bound (n i : Z) : Z :=
  if i <? 0 then Z.max 0 (i + n) else Z.min i n.

(** [l[start:stop]] *)
Definition getslice {A} (l : list A) (start stop : Z) : list A :=
  let n := Z.of_nat (length l) in
  let a := slice_bound n start in
  let b := slice_bound n stop in
  take (Z.to_nat (b - a)) (drop (Z.to_nat a) l).

(** [create_context_chunks]: for every position the slice around it
    and the position of the current subtitle inside the slice;
    [window_size // 2] rounds down. *)
Definition create_context_chunks {A} (subtitles : list A) (window_size : Z)
  : list (list A * Z) :=
  map (fun i =>
         let start := Z.max 0 (i - window_size / 2) in
         let end_ := Z.min (Z.of_nat (length subtitles))
                           (i + window_size / 2 + 1) in
         (getslice subtitles start end_, i - start))
      (range 0 (Z.of_nat (length subtitles))).

(** ** Counting in traces *)

Definition is_error (e : event) : bool :=
  match e with
  | EError => true
  | _ => false
  end.

(** The number of error reports of a trace. *)
Definition errors (lg : list event) : nat := length (List.filter is_error lg).

Definition is_failure (call : list N * list message * option (list N)) : bool :=
  match call with
  | (_, _, None) => true
  | _ => false
  end.

(** The number of requests that raised. *)
Definition failures (calls : list (list N * list message * option (list N)))
  : nat :=
  length (List.filter is_failure calls).

(** The progress reports of a trace: items done and total. *)
Definition progress_of (lg : list event) : list (Z * Z) :=
  flat_map (fun e => match e with
                     | EProgress done total => [(done, total)]
                     | _ => []
                     end) lg.

(** The previews of a trace: line, total, id, timestamp, original
    text and translation shown. *)
Definition previews (lg : list event)
  : list (Z * Z * list N * list N * list N * list N) :=
  flat_map (fun e => match e with
                     | EPreview line total id timestamp o t =>
                         [(line, total, id, timestamp, o, t)]
                     | _ => []
                     end) lg.

(** The preview of the record at position [i]: its id, its timestamp
    and its text in the store [h0], its text in the store [h]. *)
Definition preview_of (subtitles : list nat) (h0 h : nat -> subtitle) (i : Z)
  : Z * Z * list N * list N * list N * list N :=
  (i + 1, Z.of_nat (length subtitles),
   sub_id (h0 (obj subtitles i)), sub_timestamp (h0 (obj subtitles i)),
   sub_text (h0 (obj subtitles i)), sub_text (h (obj subtitles i))).

(** A request for [model], answered by the service. *)
Definition call_from
    (chat : list event -> list N -> list message -> option (list N))
    (model : list N)
    (call : list N * list message * option (list N)) : Prop :=
  match call with
  | (m, messages, response) =>
      m = model /\ exists lg, response = chat lg model messages
  end.

(** The events that the driver itself emits between the items. *)
Definition driver_event (delay : Q) (e : event) : Prop :=
  e = EPlaceholder \/ e = ESleep delay \/ e = EClear.

(** ** Records with an empty text *)

(** A record that the codec carries but for its text, which may be
    empty. *)
Definition record_writable (r : subtitle) : bool :=
  id_ok (sub_id r) && timestamp_ok (sub_timestamp r)
  && (is_empty (sub_text r) || text_ok (sub_text r)).

Definition has_text (r : subtitle) : bool := negb (is_empty (sub_text r)).

(** The number of newlines of a string. *)
Definition newlines (s : list N) : nat := length (List.filter is_nl s).

(** The written blocks joined by empty lines, the last one trimmed at
    its end. *)
Fixpoint trimmed_join (rs : list subtitle) : list N :=
  match rs with
  | [] => []
  | [r] => rstrip (block_of r)
  | r :: rs' => block_of r ++ NL :: NL :: trimmed_join rs'
  end.

(** An answer of the service that, once trimmed, is empty or has no
    empty line and no carriage return. *)
Definition answer_ok (content : list N) : bool :=
  is_empty (strip content)
  || (lines_nonempty (strip content) && no_cr (strip content)).

(** ** The name of the translated file *)

(** [s.startswith(prefix)] *)
Fixpoint starts_with (prefix s : list N) : bool :=
  match prefix, s with
  | [], _ => true
  | _ :: _, [] => false
  | p :: prefix', c :: s' => N.eqb p c && starts_with prefix' s'
  end.

(** [s.replace(old, new)] for a non-empty [old]: the occurrences are
    taken from the left and do not overlap; [skip] counts the
    characters of the current occurrence that are still to be passed. *)
Fixpoint replace_from (old new : list N) (skip : nat) (s : list N) : list N :=
  match s with
  | [] => []
  | c :: rest =>
      match skip with
      | S k => replace_from old new k rest
      | O =>
          if starts_with old s
          then new ++ replace_from old new (length old - 1) rest
          else c :: replace_from old new 0 rest
      end
  end.

(** [original_name.replace('.srt', '.fa.srt')], the name under which
    [main] offers the translation; the path of the output file is
    made from the path of the temporary file in the same way. *)
Definition output_name (original_name : list N) : list N :=
  replace_from (lit ".srt") (lit ".fa.srt") 0 original_name.

(** [old in s] *)
Fixpoint occurs (old s : list N) : bool :=
  starts_with old s
  || match s with
     | [] => false
     | _ :: rest => occurs old rest
     end.

(** * Proofs *)

(** ** Strings *)

Section StringFacts.

Lemma isspace_NL : isspace NL = true.
Proof. reflexivity. Qed.

Lemma is_nl_true c : is_nl c = true -> c = NL.
Proof. unfold is_nl. intros H. now apply N.eqb_eq in H. Qed.

Lemma is_nl_space c : is_nl c = true -> isspace c = true.
Proof. intros H. apply is_nl_true in H. now subst. Qed.

Lemma dropwhile_id {A} (p : A -> bool) s :
  match s with c :: _ => p c = false | [] => True end -> dropwhile p s = s.
Proof. destruct s as [|c s]; simpl; [easy|]. now intros ->. Qed.

Lemma dropwhile_suffix {A} (p : A -> bool) s :
  exists d, s = d ++ dropwhile p s.
Proof.
  induction s as [|c s [d IH]]; simpl.
  - now exists [].
  - destruct (p c).
    + exists (c :: d). simpl. now f_equal.
    + now exists [].
Qed.

Lemma dropwhile_head {A} (p : A -> bool) s :
  match dropwhile p s with c :: _ => p c = false | [] => True end.
Proof.
  induction s as [|c s IH]; simpl; [easy|].
  destruct (p c) eqn:E; [exact IH | exact E].
Qed.

Lemma lstrip_id s : head_space s = false -> lstrip s = s.
Proof. intros H. apply dropwhile_id. now destruct s. Qed.

Lemma rstrip_keep a t :
  t <> [] -> head_space (rev t) = false -> rstrip (a ++ t) = a ++ t.
Proof.
  intros Hne Ht. unfold rstrip. rewrite rev_app_distr.
  rewrite dropwhile_id.
  - now rewrite <- rev_app_distr, rev_involutive.
  - destruct (rev t) as [|c r] eqn:E.
    + apply (f_equal (@rev N)) in E. rewrite rev_involutive in E. now subst.
    + exact Ht.
Qed.

Lemma rstrip_snoc_space a c : isspace c = true -> rstrip (a ++ [c]) = rstrip a.
Proof.
  intros H. unfold rstrip. rewrite rev_app_distr. simpl. now rewrite H.
Qed.

Lemma rstrip_prefix s : exists d, s = rstrip s ++ d.
Proof.
  unfold rstrip. destruct (dropwhile_suffix isspace (rev s)) as [d Hd].
  exists (rev d). rewrite <- rev_app_distr, <- Hd. now rewrite rev_involutive.
Qed.

Lemma rstrip_last s : head_space (rev (rstrip s)) = false.
Proof.
  unfold rstrip. rewrite rev_involutive.
  pose proof (dropwhile_head isspace (rev s)) as H.
  now destruct (dropwhile isspace (rev s)).
Qed.

Lemma strip_head s : head_space (strip s) = false.
Proof.
  unfold strip.
  destruct (rstrip_prefix (lstrip s)) as [d Hd].
  pose proof (dropwhile_head isspace s) as H. fold (lstrip s) in H.
  destruct (rstrip (lstrip s)) as [|c r]; [reflexivity|].
  rewrite Hd in H. exact H.
Qed.

Lemma strip_last s : head_space (rev (strip s)) = false.
Proof. apply rstrip_last. Qed.

(** [strip] keeps a piece of the string. *)
Lemma strip_infix s : exists a b, s = a ++ strip s ++ b.
Proof.
  unfold strip.
  destruct (dropwhile_suffix isspace s) as [a Ha]. fold (lstrip s) in Ha.
  destruct (rstrip_prefix (lstrip s)) as [b Hb].
  exists a, b. now rewrite <- Hb.
Qed.

Lemma split_nl_nonnil s : split_nl s <> [].
Proof.
  destruct s as [|c s]; simpl; [easy|].
  destruct (is_nl c); [easy|]. now destruct (split_nl s).
Qed.

Lemma join_cons_head sep c ps :
  ps <> [] -> join sep (cons_head c ps) = c :: join sep ps.
Proof. destruct ps as [|p [|q ps]]; simpl; easy. Qed.

Lemma join_split_nl s : join [NL] (split_nl s) = s.
Proof.
  induction s as [|c s IH]; simpl; [reflexivity|].
  destruct (is_nl c) eqn:E.
  - apply is_nl_true in E. subst c.
    pose proof (split_nl_nonnil s) as Hne.
    destruct (split_nl s) as [|p ps]; [easy|]. simpl in *. now rewrite IH.
  - rewrite join_cons_head by apply split_nl_nonnil. now rewrite IH.
Qed.

Lemma split_nl_app a b :
  no_nl a = true -> split_nl (a ++ NL :: b) = a :: split_nl b.
Proof.
  induction a as [|c a IH]; simpl; [reflexivity|].
  intros H. apply andb_true_iff in H as [Hc Ha].
  apply negb_true_iff in Hc. rewrite Hc, IH by assumption. reflexivity.
Qed.

End StringFacts.

(** ** The splitting of a file into blocks *)

Section Blocks.

Lemma re_split_from_true s :
  re_split_blank_from true s = re_split_blank_from false (dropwhile is_nl s).
Proof.
  induction s as [|c s IH]; simpl; [reflexivity|].
  destruct (is_nl c) eqn:E; [exact IH|]. simpl. now rewrite E.
Qed.

Lemma re_split_nonnil b s : re_split_blank_from b s <> [].
Proof.
  revert b. induction s as [|c s IH]; intros b; simpl; [easy|].
  destruct (is_nl c); [destruct b; [apply IH|destruct (head_is_nl s); [easy|]]|];
    specialize (IH false); now destruct (re_split_blank_from false s).
Qed.

(** The first piece of a split starts like the string. *)
Lemma re_split_first s :
  exists p ps, re_split_blank_from false s = p :: ps /\
               (p = [] \/ head_is_nl p = head_is_nl s).
Proof.
  destruct s as [|c s]; simpl; [now exists [], []; auto|].
  pose proof (re_split_nonnil false s) as Hne.
  destruct (re_split_blank_from false s) as [|q qs] eqn:E; [easy|].
  destruct (is_nl c) eqn:Ec.
  - destruct (head_is_nl s).
    + exists [], (re_split_blank_from true s). auto.
    + exists (c :: q), qs. simpl. rewrite Ec. auto.
  - exists (c :: q), qs. simpl. rewrite Ec. auto.
Qed.

Lemma nn_free_cons_head c ps s :
  re_split_blank_from false s = ps ->
  is_nl c && head_is_nl s = false ->
  Forall (fun p => nn_free p = true) ps ->
  Forall (fun p => nn_free p = true) (cons_head c ps).
Proof.
  intros Hps Hc Hall.
  destruct (re_split_first s) as (p & qs & Hs & Hp).
  subst ps. rewrite Hs in *. simpl.
  pose proof (Forall_inv Hall) as Hp'. pose proof (Forall_inv_tail Hall) as Hqs.
  simpl in Hp'.
  constructor; [|exact Hqs]. simpl. rewrite Hp', andb_true_r.
  destruct Hp as [-> | ->]; [simpl; now rewrite andb_false_r | now rewrite Hc].
Qed.

(** No block holds a blank line. *)
Lemma re_split_nn_free b s :
  Forall (fun p => nn_free p = true) (re_split_blank_from b s).
Proof.
  revert b. induction s as [|c s IH]; intros b; simpl.
  - now constructor.
  - destruct (is_nl c) eqn:Ec.
    + destruct b; [apply IH|].
      destruct (head_is_nl s) eqn:Eh.
      * constructor; [reflexivity | apply IH].
      * eapply nn_free_cons_head; [reflexivity | now rewrite Ec, Eh | apply IH].
    + eapply nn_free_cons_head; [reflexivity | now rewrite Ec | apply IH].
Qed.

Lemma head_is_nl_app a b :
  a <> [] -> head_is_nl (a ++ b) = head_is_nl a.
Proof. now destruct a. Qed.

Lemma nn_free_app_l a b : nn_free (a ++ b) = true -> nn_free a = true.
Proof.
  induction a as [|c a IH]; simpl; [reflexivity|].
  intros H. apply andb_true_iff in H as [Hc Ha].
  rewrite (IH Ha), andb_true_r.
  destruct a as [|d a]; [simpl; now rewrite andb_false_r | exact Hc].
Qed.

Lemma nn_free_app_r a b : nn_free (a ++ b) = true -> nn_free b = true.
Proof.
  induction a as [|c a IH]; simpl; [easy|].
  intros H. apply andb_true_iff in H as [_ Ha]. now apply IH.
Qed.

(** In a string without adjacent newlines that does not end with one,
    every line after the first is non-empty. *)
Lemma split_nl_tail_nonempty s :
  nn_free s = true -> head_is_nl (rev s) = false ->
  Forall (fun l => is_empty l = false) (tail (split_nl s)).
Proof.
  induction s as [|c s IH]; simpl; [constructor|].
  intros Hnn Hlast. apply andb_true_iff in Hnn as [Hc Hnn].
  assert (Hlast' : s <> [] -> head_is_nl (rev s) = false).
  { intros Hs. rewrite head_is_nl_app in Hlast; [exact Hlast|].
    intros E. apply (f_equal (@rev N)) in E. rewrite rev_involutive in E.
    now subst. }
  assert (IH' : Forall (fun l => is_empty l = false) (tail (split_nl s))).
  { destruct s as [|d s]; [constructor|]. now apply IH, Hlast'. }
  destruct (is_nl c) eqn:Ec; simpl.
  - destruct s as [|d s]; [simpl in Hlast; now rewrite Ec in Hlast|].
    simpl in Hc. apply negb_true_iff in Hc.
    simpl in *. rewrite Hc in *.
    pose proof (split_nl_nonnil s) as Hne.
    destruct (split_nl s) as [|p ps]; [easy|]. simpl in *. now constructor.
  - pose proof (split_nl_nonnil s) as Hne.
    destruct (split_nl s) as [|p ps]; [easy|]. exact IH'.
Qed.

(** The lines of a trimmed block are all non-empty, unless the block is
    empty. *)
Lemma block_lines_nonempty block :
  nn_free block = true -> strip block <> [] ->
  Forall (fun l => is_empty l = false) (block_lines block).
Proof.
  intros Hnn Hne. unfold block_lines.
  destruct (strip_infix block) as (a & b & Hab).
  assert (Hs : nn_free (strip block) = true).
  { rewrite Hab in Hnn. apply nn_free_app_r in Hnn. now apply nn_free_app_l in Hnn. }
  pose proof (strip_head block) as Hh. pose proof (strip_last block) as Hl.
  assert (Hl' : head_is_nl (rev (strip block)) = false).
  { destruct (rev (strip block)) as [|c r]; [reflexivity|]. simpl in *.
    destruct (is_nl c) eqn:E; [|reflexivity].
    apply is_nl_space in E. congruence. }
  pose proof (split_nl_tail_nonempty _ Hs Hl') as Ht.
  destruct (strip block) as [|c s]; [easy|]. simpl in *.
  destruct (is_nl c) eqn:E; [apply is_nl_space in E; congruence|].
  pose proof (split_nl_nonnil s) as Hn.
  destruct (split_nl s) as [|p ps]; [easy|]. simpl in *. now constructor.
Qed.

Lemma filter_nonempty_id (ls : list (list N)) :
  Forall (fun l => is_empty l = false) ls ->
  List.filter (fun l => negb (is_empty l)) ls = ls.
Proof.
  induction 1 as [|l ls Hl _ IH]; [reflexivity|].
  cbn. rewrite Hl. cbn. now f_equal.
Qed.

Lemma parse_block_spec block :
  nn_free block = true -> parse_block block = spec_parse_block block.
Proof.
  intros Hnn. unfold parse_block, spec_parse_block, nonempty_lines.
  destruct (strip block) as [|c s] eqn:E.
  - unfold block_lines. rewrite E. reflexivity.
  - fold (block_lines block).
    assert (H : strip block <> []) by now rewrite E.
    pose proof (block_lines_nonempty block Hnn H) as Hall.
    unfold block_lines in *. rewrite E in *.
    now rewrite filter_nonempty_id.
Qed.

End Blocks.

(** ** Parsing *)

Section Parse.

Lemma flat_map_ext_Forall {A B} (f g : A -> list B) (P : A -> Prop) l :
  (forall x, P x -> f x = g x) -> Forall P l -> flat_map f l = flat_map g l.
Proof.
  intros Hfg. induction 1 as [|x l Hx _ IH]; simpl; [reflexivity|].
  now rewrite (Hfg x Hx), IH.
Qed.

Lemma parse_content_spec content :
  parse_content content = flat_map spec_parse_block (subtitle_blocks content).
Proof.
  unfold parse_content.
  apply flat_map_ext_Forall with (P := fun b => nn_free b = true).
  - apply parse_block_spec.
  - apply re_split_nn_free.
Qed.

(** C7: a block with fewer than three non-empty lines after trimming
    adds nothing to the result of [parse_srt], a block with at least
    three gives the record made of its first line, its second line and
    the others joined by newlines; the two-line example has no record. *)
Theorem parse_srt_blocks file :
  parse_srt file
  = flat_map
      (fun block =>
         let lines := nonempty_lines block in
         if (3 <=? length lines)%nat then
           [Subtitle (nth 0 lines []) (nth 1 lines [])
                     (join [NL] (skipn 2 lines))]
         else [])
      (subtitle_blocks (read_text file))
  /\ parse_srt two_line_input = [].
Proof.
  split; [apply parse_content_spec | reflexivity].
Qed.

End Parse.

(** ** Writing and reading back *)

Section RoundTrip.

Lemma read_write_text p s :
  no_cr s = true -> read_text (write_text p s) = s.
Proof.
  induction s as [|c s IH]; simpl; [reflexivity|].
  intros H. apply andb_true_iff in H as [Hc Hs].
  apply negb_true_iff in Hc. specialize (IH Hs).
  destruct (is_nl c) eqn:E.
  - apply is_nl_true in E. subst c. destruct p; simpl; now rewrite IH.
  - simpl. now rewrite Hc, IH.
Qed.

Lemma no_cr_app a b : no_cr (a ++ b) = no_cr a && no_cr b.
Proof. apply forallb_app. Qed.

Lemma concat_imap_const {A B} (f : nat -> A -> list B) (g : A -> list B) l :
  (forall i x, f i x = g x) -> concat (imap f l) = flat_map g l.
Proof.
  intros Hfg. revert f Hfg.
  induction l as [|x l IH]; intros f Hfg; [reflexivity|].
  rewrite imap_cons. simpl. rewrite Hfg. f_equal.
  apply IH. intros i y. apply Hfg.
Qed.

Lemma write_entry_0 r : write_entry 0 r = block_of r ++ [NL].
Proof.
  unfold write_entry, block_of. simpl.
  repeat (rewrite <- app_assoc; simpl). reflexivity.
Qed.

Lemma write_entry_S i r : write_entry (S i) r = NL :: block_of r ++ [NL].
Proof.
  unfold write_entry, block_of. simpl.
  repeat (rewrite <- app_assoc; simpl). reflexivity.
Qed.

Lemma write_content_cons r rs :
  write_content (r :: rs)
  = (block_of r ++ [NL]) ++ flat_map (fun r' => NL :: block_of r' ++ [NL]) rs.
Proof.
  unfold write_content. rewrite imap_cons. cbn [concat].
  rewrite write_entry_0. f_equal.
  apply concat_imap_const. intros i x. apply write_entry_S.
Qed.

Lemma write_content_join r rs :
  write_content (r :: rs) = join [NL; NL] (map block_of (r :: rs)) ++ [NL].
Proof.
  rewrite write_content_cons. revert r.
  induction rs as [|r' rs IH]; intros r.
  - simpl. now rewrite app_nil_r.
  - specialize (IH r'). cbn [map join flat_map]. cbn [map] in IH.
    repeat (rewrite <- app_assoc in IH; simpl in IH).
    repeat (rewrite <- app_assoc; simpl). now rewrite <- IH.
Qed.

Lemma re_split_block b s' :
  block_ok b = true -> head_is_nl s' = false ->
  re_split_blank_from false (b ++ NL :: NL :: s')
  = b :: re_split_blank_from false s'.
Proof.
  intros Hb Hs'. induction b as [|c b IH].
  - simpl. rewrite re_split_from_true, dropwhile_id; [reflexivity|].
    now destruct s'.
  - simpl in *. destruct (is_nl c) eqn:Ec.
    + apply andb_true_iff in Hb as [Hb Hok]. apply andb_true_iff in Hb as [Hne Hh].
      destruct b as [|d b]; [discriminate|].
      apply negb_true_iff in Hh. rewrite head_is_nl_app by easy.
      now rewrite Hh, (IH Hok).
    + now rewrite (IH Hb).
Qed.

Lemma re_split_single b :
  block_ok b = true -> re_split_blank_from false b = [b].
Proof.
  induction b as [|c b IH]; [reflexivity|]. simpl.
  destruct (is_nl c) eqn:Ec; intros Hb.
  - apply andb_true_iff in Hb as [Hb Hok]. apply andb_true_iff in Hb as [Hne Hh].
    apply negb_true_iff in Hh. now rewrite Hh, (IH Hok).
  - now rewrite (IH Hb).
Qed.

Lemma block_ok_app a b :
  no_nl a = true -> block_ok b = true -> block_ok (a ++ b) = true.
Proof.
  intros Ha Hb. induction a as [|c a IH]; [exact Hb|]. simpl in *.
  apply andb_true_iff in Ha as [Hc Ha]. apply negb_true_iff in Hc.
  rewrite Hc. now apply IH.
Qed.

Lemma block_ok_of_lines s :
  forallb (fun l => negb (is_empty l)) (tail (split_nl s)) = true ->
  block_ok s = true.
Proof.
  induction s as [|c s IH]; [reflexivity|]. simpl.
  pose proof (split_nl_nonnil s) as Hne.
  destruct (is_nl c) eqn:Ec; simpl.
  - intros H. destruct s as [|d s]; [discriminate|].
    rewrite IH.
    + simpl in H |- *. destruct (is_nl d); [discriminate | reflexivity].
    + destruct (split_nl (d :: s)) as [|l ls]; [easy|].
      simpl in H. now apply andb_true_iff in H as [_ H].
  - destruct (split_nl s) as [|l ls]; [easy|]. exact IH.
Qed.

Lemma lines_nonempty_inv s :
  lines_nonempty s = true ->
  s <> [] /\ head_is_nl s = false /\ block_ok s = true.
Proof.
  unfold lines_nonempty. intros H. repeat split.
  - intros ->. discriminate.
  - destruct s as [|c s]; [reflexivity|]. simpl in *.
    destruct (is_nl c); [discriminate | reflexivity].
  - apply block_ok_of_lines. pose proof (split_nl_nonnil s) as Hne.
    destruct (split_nl s) as [|l ls]; [easy|].
    simpl in H. now apply andb_true_iff in H as [_ H].
Qed.

Lemma record_ok_inv r :
  record_ok r = true ->
  (sub_id r <> [] /\ no_nl (sub_id r) = true /\ no_cr (sub_id r) = true
   /\ head_space (sub_id r) = false)
  /\ (sub_timestamp r <> [] /\ no_nl (sub_timestamp r) = true
      /\ no_cr (sub_timestamp r) = true)
  /\ (lines_nonempty (sub_text r) = true /\ no_cr (sub_text r) = true
      /\ head_space (rev (sub_text r)) = false).
Proof.
  unfold record_ok, id_ok, timestamp_ok, text_ok. intros H.
  repeat match goal with
         | h : _ && _ = true |- _ => apply andb_true_iff in h as [? ?]
         end.
  repeat match goal with
         | h : negb _ = true |- _ => apply negb_true_iff in h
         end.
  repeat split; try assumption.
  - intros E. now rewrite E in *.
  - intros E. now rewrite E in *.
Qed.

Lemma head_nonspace_nonnl s : head_space s = false -> head_is_nl s = false.
Proof.
  destruct s as [|c s]; [reflexivity|]. simpl. intros H.
  destruct (is_nl c) eqn:E; [|reflexivity]. apply is_nl_space in E. congruence.
Qed.

Lemma block_of_ok r : record_ok r = true -> block_ok (block_of r) = true.
Proof.
  intros H. apply record_ok_inv in H as ((_ & Hi & _) & (Ht0 & Ht & _) & Hx & _).
  apply lines_nonempty_inv in Hx as (Hx0 & Hxh & Hxok).
  unfold block_of. apply block_ok_app; [exact Hi|]. simpl.
  destruct (sub_timestamp r) as [|c t] eqn:E; [easy|]. rewrite <- E in *.
  assert (Hh : head_is_nl (sub_timestamp r ++ NL :: sub_text r) = false).
  { rewrite E in *. simpl in *. apply andb_true_iff in Ht as [Hc _].
    now apply negb_true_iff in Hc. }
  rewrite Hh. replace (is_empty (sub_timestamp r ++ NL :: sub_text r)) with false
    by (rewrite E; reflexivity). simpl.
  apply block_ok_app; [exact Ht|]. simpl.
  rewrite Hxh, Hxok. now destruct (sub_text r).
Qed.

Lemma block_of_head r : record_ok r = true -> head_space (block_of r) = false.
Proof.
  intros H. apply record_ok_inv in H as ((Hi0 & _ & _ & Hih) & _).
  unfold block_of. now destruct (sub_id r).
Qed.

Lemma block_of_strip r : record_ok r = true -> strip (block_of r) = block_of r.
Proof.
  intros H. unfold strip. rewrite lstrip_id by now apply block_of_head.
  apply record_ok_inv in H as (_ & _ & Hx & _ & Hl).
  apply lines_nonempty_inv in Hx as (Hx0 & _).
  unfold block_of.
  change (sub_id r ++ NL :: sub_timestamp r ++ NL :: sub_text r)
    with (sub_id r ++ (NL :: sub_timestamp r) ++ (NL :: sub_text r)).
  rewrite app_assoc.
  change (NL :: sub_text r) with ([NL] ++ sub_text r). rewrite app_assoc.
  now apply rstrip_keep.
Qed.

Lemma parse_block_of r : record_ok r = true -> parse_block (block_of r) = [r].
Proof.
  intros H. unfold parse_block, block_lines. rewrite block_of_strip by exact H.
  apply record_ok_inv in H as ((_ & Hi & _) & (_ & Ht & _) & _).
  unfold block_of. rewrite split_nl_app by exact Hi.
  rewrite split_nl_app by exact Ht.
  pose proof (split_nl_nonnil (sub_text r)) as Hne.
  pose proof (join_split_nl (sub_text r)) as Hj.
  destruct (split_nl (sub_text r)) as [|l ls]; [easy|].
  cbn [length Nat.leb nth skipn]. rewrite Hj. now destruct r.
Qed.

Lemma block_of_no_cr r : record_ok r = true -> no_cr (block_of r) = true.
Proof.
  intros H. apply record_ok_inv in H as ((_ & _ & Hi & _) & (_ & _ & Ht) & _ & Hx & _).
  unfold block_of.
  change (NL :: sub_timestamp r ++ NL :: sub_text r)
    with ([NL] ++ sub_timestamp r ++ [NL] ++ sub_text r).
  repeat rewrite no_cr_app. now rewrite Hi, Ht, Hx.
Qed.

Lemma join_blank_cons b c bs :
  join blank (b :: c :: bs) = b ++ NL :: NL :: join blank (c :: bs).
Proof. reflexivity. Qed.

Lemma joined_head r rs :
  Forall (fun r => record_ok r = true) (r :: rs) ->
  head_space (join blank (map block_of (r :: rs))) = false.
Proof.
  intros H. pose proof (Forall_inv H) as Hr. simpl in Hr.
  pose proof (block_of_head r Hr) as Hh.
  assert (Hne : block_of r <> []).
  { unfold block_of. now destruct (sub_id r). }
  destruct rs as [|r' rs]; [exact Hh|].
  cbn [map]. rewrite join_blank_cons.
  destruct (block_of r); [easy | exact Hh].
Qed.

Lemma joined_no_cr rs :
  Forall (fun r => record_ok r = true) rs ->
  no_cr (join blank (map block_of rs)) = true.
Proof.
  induction 1 as [|r rs Hr Hrs IH]; [reflexivity|].
  destruct rs as [|r' rs]; [now apply block_of_no_cr|].
  cbn [map] in *. rewrite join_blank_cons.
  change (NL :: NL :: ?x) with ([NL; NL] ++ x).
  repeat rewrite no_cr_app. now rewrite IH, block_of_no_cr.
Qed.

(** The text ends with the text of the last record. *)
Lemma joined_last r rs :
  exists pre r', In r' (r :: rs) /\
    join blank (map block_of (r :: rs)) = pre ++ sub_text r'.
Proof.
  revert r. induction rs as [|r2 rs IH]; intros r.
  - exists (sub_id r ++ NL :: sub_timestamp r ++ [NL]), r. split; [now left|].
    simpl. unfold block_of. repeat (rewrite <- app_assoc; simpl). reflexivity.
  - destruct (IH r2) as (pre & r' & Hin & E).
    exists (block_of r ++ NL :: NL :: pre), r'. split; [now right|].
    cbn [map] in *. rewrite join_blank_cons, E.
    repeat (rewrite <- app_assoc; simpl). reflexivity.
Qed.

Lemma strip_written r rs :
  Forall (fun r => record_ok r = true) (r :: rs) ->
  strip (write_content (r :: rs)) = join blank (map block_of (r :: rs)).
Proof.
  intros H. rewrite write_content_join. fold blank.
  pose proof (joined_head r rs H) as Hh.
  destruct (joined_last r rs) as (pre & r' & Hin & E).
  rewrite Forall_forall in H. specialize (H r' Hin). simpl in H.
  apply record_ok_inv in H as (_ & _ & Hx & _ & Hl).
  apply lines_nonempty_inv in Hx as (Hx0 & _).
  unfold strip. rewrite lstrip_id.
  - rewrite rstrip_snoc_space by reflexivity. rewrite E. now apply rstrip_keep.
  - rewrite E in *. destruct (pre ++ sub_text r') eqn:E'; [|exact Hh].
    apply app_eq_nil in E' as [_ E']. congruence.
Qed.

Lemma split_written r rs :
  Forall (fun r => record_ok r = true) (r :: rs) ->
  re_split_blank (join blank (map block_of (r :: rs))) = map block_of (r :: rs).
Proof.
  unfold re_split_blank. revert r.
  induction rs as [|r2 rs IH]; intros r H.
  - simpl. apply re_split_single, block_of_ok. exact (Forall_inv H).
  - cbn [map] in *. rewrite join_blank_cons.
    pose proof (Forall_inv_tail H) as H2.
    rewrite re_split_block.
    + now rewrite (IH r2 H2).
    + apply block_of_ok. exact (Forall_inv H).
    + apply head_nonspace_nonnl. exact (joined_head r2 rs H2).
Qed.

Lemma parse_blocks_of rs :
  Forall (fun r => record_ok r = true) rs ->
  flat_map parse_block (map block_of rs) = rs.
Proof.
  induction 1 as [|r rs Hr _ IH]; [reflexivity|].
  simpl. now rewrite parse_block_of, IH.
Qed.

Lemma write_content_no_cr rs :
  Forall (fun r => record_ok r = true) rs -> no_cr (write_content rs) = true.
Proof.
  intros H. destruct rs as [|r rs]; [reflexivity|].
  rewrite write_content_join. fold blank. rewrite no_cr_app.
  now rewrite joined_no_cr.
Qed.

(** C1, as the code has it: a sequence of records is written and read
    back unchanged, on either platform, when every id and timestamp is
    a non-empty single line without carriage return, no id starts with
    white space, and every text has no empty line, no carriage return
    and no white space at its end. *)
Theorem parse_write_roundtrip (p : platform) (records : list subtitle) :
  Forall (fun r => record_ok r = true) records ->
  parse_srt (write_srt p records) = records.
Proof.
  intros H. unfold parse_srt, write_srt.
  rewrite read_write_text by now apply write_content_no_cr.
  destruct records as [|r rs]; [reflexivity|].
  unfold parse_content, subtitle_blocks.
  rewrite strip_written by exact H.
  rewrite split_written by exact H.
  now apply parse_blocks_of.
Qed.

Lemma parse_write_roundtrip_witness :
  Forall (fun r => record_ok r = true)
         [Subtitle (lit "1") (lit "00:00:01,000 --> 00:00:02,000")
                   (lit "Hello" ++ [NL] ++ lit " there");
          Subtitle (lit "2") (lit "00:00:03,000 --> 00:00:04,000") (lit "Bye")]
  /\ parse_srt (write_srt Windows
         [Subtitle (lit "1") (lit "00:00:01,000 --> 00:00:02,000")
                   (lit "Hello" ++ [NL] ++ lit " there");
          Subtitle (lit "2") (lit "00:00:03,000 --> 00:00:04,000") (lit "Bye")])
     = [Subtitle (lit "1") (lit "00:00:01,000 --> 00:00:02,000")
                   (lit "Hello" ++ [NL] ++ lit " there");
          Subtitle (lit "2") (lit "00:00:03,000 --> 00:00:04,000") (lit "Bye")].
Proof.
  split.
  - repeat constructor.
  - apply (parse_write_roundtrip Windows). repeat constructor.
Defined.

(** C1, as stated, fails: a text without any blank line that ends with
    a space comes back without that space. *)
Lemma roundtrip_loses_trailing_space :
  ~ (forall (records : list subtitle),
       Forall (fun r => blank_line_free (sub_text r) = true) records ->
       parse_srt (write_srt Posix records) = records).
Proof.
  intros H. specialize (H [trailing_space_record]).
  assert (Hok : Forall (fun r => blank_line_free (sub_text r) = true)
                       [trailing_space_record]) by (repeat constructor).
  specialize (H Hok). vm_compute in H. discriminate H.
Qed.

(** The other conditions of the round trip are needed as well. *)

Example roundtrip_trims_id :
  parse_srt (write_srt Posix [Subtitle (lit " 1") (lit "t") (lit "Hi")])
  = [Subtitle (lit "1") (lit "t") (lit "Hi")].
Proof. vm_compute. reflexivity. Qed.

Example roundtrip_drops_empty_text :
  parse_srt (write_srt Posix [Subtitle (lit "1") (lit "t") []]) = [].
Proof. vm_compute. reflexivity. Qed.

Example roundtrip_drops_empty_timestamp :
  parse_srt (write_srt Posix [Subtitle (lit "1") [] (lit "Hi")]) = [].
Proof. vm_compute. reflexivity. Qed.

Example roundtrip_shifts_on_newline_in_id :
  parse_srt (write_srt Posix [Subtitle (lit "1" ++ [NL] ++ lit "a") (lit "t") (lit "Hi")])
  = [Subtitle (lit "1") (lit "a") (lit "t" ++ [NL] ++ lit "Hi")].
Proof. vm_compute. reflexivity. Qed.

Example roundtrip_reads_cr_as_newline :
  parse_srt (write_srt Posix [Subtitle (lit "1") (lit "t") (lit "a" ++ [CR] ++ lit "b")])
  = [Subtitle (lit "1") (lit "t") (lit "a" ++ [NL] ++ lit "b")].
Proof. vm_compute. reflexivity. Qed.

End RoundTrip.

(** ** The loops of the driver *)

Section Loops.

Variable chat : list event -> list N -> list message -> option (list N).

Lemma getitem_obj (subtitles : list nat) i :
  0 <= i < Z.of_nat (length subtitles) ->
  getitem subtitles i = inr (obj subtitles i).
Proof.
  intros [Hlo Hhi]. unfold getitem, obj.
  assert (H0 : (i <? 0) = false) by lia.
  assert (Hn : (Z.of_nat (length subtitles) <=? i) = false) by lia.
  cbv zeta. rewrite !H0, Hn. cbn [orb].
  destruct (lookup_lt_is_Some_2 subtitles (Z.to_nat i)) as [d Hd]; [lia|].
  now rewrite Hd.
Qed.

Lemma bind_getitem {B} (subtitles : list nat) i (k : nat -> M B) w :
  0 <= i < Z.of_nat (length subtitles) ->
  bind (lift (getitem subtitles i)) k w = k (obj subtitles i) w.
Proof. intros H. unfold bind, lift. now rewrite getitem_obj. Qed.

Lemma bind_read {A B} (field : subtitle -> A) d (k : A -> M B) w :
  bind (read field d) k w = k (field (heap w d)) w.
Proof. reflexivity. Qed.

Lemma bind_ret {A B} (a : A) (k : A -> M B) w : bind (ret a) k w = k a w.
Proof. reflexivity. Qed.

Lemma bind_emit {B} e (k : unit -> M B) w :
  bind (emit e) k w = k tt (World (heap w) (log w ++ [e])).
Proof. reflexivity. Qed.

Lemma bind_write {B} d t (k : unit -> M B) w :
  bind (write_text_field d t) k w
  = k tt (World (<[d := set_text t (heap w d)]> (heap w)) (log w)).
Proof. reflexivity. Qed.

Lemma bind_run {A B} (m : M A) (k : A -> M B) w a w' :
  m w = inr (a, w') -> bind m k w = k a w'.
Proof. intros H. unfold bind. now rewrite H. Qed.

Lemma for_each_fold {A} (xs : list A) (body : A -> M unit)
    (f : world -> A -> world) w :
  (forall x w, In x xs -> body x w = inr (tt, f w x)) ->
  for_each xs body w = inr (tt, fold_left f xs w).
Proof.
  revert w. induction xs as [|x xs IH]; intros w H; [reflexivity|].
  simpl. rewrite (bind_run _ _ _ _ _ (H x w (or_introl eq_refl))).
  apply IH. intros y w' Hy. apply H. now right.
Qed.

Lemma collect_context (subtitles : list nat) js w :
  Forall (fun j => 0 <= j < Z.of_nat (length subtitles)) js ->
  collect js
    (fun j =>
       s <- lift (getitem subtitles j) ;;
       o <- read sub_text s ;;
       t <- lift (getitem subtitles j) ;;
       tr <- read sub_text t ;;
       ret (ContextPair o tr)) w
  = inr (context_of (heap w) subtitles js, w).
Proof.
  induction 1 as [|j js Hj _ IH]; [reflexivity|].
  cbn [collect]. rewrite (bind_run _ _ w (ContextPair (sub_text (heap w (obj subtitles j))) (sub_text (heap w (obj subtitles j)))) w).
  - rewrite (bind_run _ _ _ _ _ IH). reflexivity.
  - rewrite bind_getitem by exact Hj. rewrite bind_read.
    rewrite bind_getitem by exact Hj. now rewrite bind_read.
Qed.

Lemma range_bounds lo hi j : In j (range lo hi) -> lo <= j < hi.
Proof.
  unfold range. intros H. apply list_elem_of_In in H.
  apply elem_of_seqZ in H. lia.
Qed.

Lemma length_range lo hi : length (range lo hi) = Z.to_nat (hi - lo).
Proof. unfold range. apply length_seqZ. Qed.

Lemma context_indices_bounds cs b i j :
  0 <= b <= i -> In j (context_indices cs b i) -> 0 <= j < i.
Proof.
  intros Hb. unfold context_indices.
  destruct ((i =? b) && (0 <? b)) eqn:E; intros H; apply range_bounds in H.
  - apply andb_true_iff in E as [E _]. apply Z.eqb_eq in E. lia.
  - lia.
Qed.

Lemma translate_to_persian_run text model ctx w :
  translate_to_persian chat text model ctx w
  = let messages := build_messages text ctx in
    let response := chat (log w) model messages in
    inr (outcome response text,
         World (heap w)
               (log w ++ [EChat model messages response]
                ++ match response with Some _ => [] | None => [EError] end)).
Proof.
  unfold translate_to_persian. cbv zeta.
  destruct (chat (log w) model (build_messages text ctx)); reflexivity.
Qed.

Lemma translate_item_run (subtitles : list nat) model cs pb b i w :
  0 <= b <= i -> i < Z.of_nat (length subtitles) ->
  translate_item chat subtitles subtitles model cs pb b i w
  = inr (tt, item_world chat subtitles model cs pb b w i).
Proof.
  intros Hb Hi.
  assert (Hr : 0 <= i < Z.of_nat (length subtitles)) by lia.
  unfold translate_item.
  rewrite bind_getitem by exact Hr. rewrite bind_read.
  erewrite bind_run.
  2:{ apply collect_context. apply Forall_forall. intros j Hj.
      apply (context_indices_bounds cs b i j) in Hj; lia. }
  erewrite bind_run by apply translate_to_persian_run.
  rewrite bind_getitem by exact Hr. rewrite bind_write.
  rewrite bind_getitem by (cbn; exact Hr). rewrite bind_read.
  rewrite bind_getitem by (cbn; exact Hr). rewrite bind_read.
  rewrite bind_emit. unfold item_world. cbn [heap log].
  rewrite fn_lookup_insert. cbn [sub_id sub_timestamp set_text].
  destruct pb; unfold emit, ret; cbn [heap log];
    repeat (rewrite <- app_assoc; cbn [app]); reflexivity.
Qed.

Lemma sleep_run delay w :
  (0 <= delay)%Q ->
  sleep delay w = inr (tt, World (heap w) (log w ++ [ESleep delay])).
Proof.
  intros H. unfold sleep. apply Qle_bool_iff in H. now rewrite H.
Qed.

Lemma translate_batch_run (subtitles : list nat) model cs bs delay pb b w :
  (0 <= delay)%Q -> 0 <= b ->
  translate_batch chat subtitles subtitles model cs bs delay pb b w
  = inr (tt, batch_world chat subtitles model cs bs delay pb w b).
Proof.
  intros Hd Hb. unfold translate_batch, batch_world. cbv zeta.
  erewrite bind_run.
  2:{ apply for_each_fold. intros i w' Hi. apply range_bounds in Hi.
      apply translate_item_run; lia. }
  destruct (_ <? _); [now apply sleep_run | reflexivity].
Qed.

Lemma sleep_fails delay w : (delay < 0)%Q -> sleep delay w = inl ValueError.
Proof.
  intros H. unfold sleep. destruct (Qle_bool 0 delay) eqn:E; [|reflexivity].
  apply Qle_bool_iff in E. now apply Qlt_not_le in H.
Qed.

Lemma translate_batch_fails (subtitles : list nat) model cs bs delay pb b w :
  (delay < 0)%Q -> 0 <= b ->
  b + bs < Z.of_nat (length subtitles) ->
  translate_batch chat subtitles subtitles model cs bs delay pb b w
  = inl ValueError.
Proof.
  intros Hd Hb Hn. unfold translate_batch. cbv zeta.
  erewrite bind_run.
  2:{ apply for_each_fold. intros i w' Hi. apply range_bounds in Hi.
      apply translate_item_run; lia. }
  assert (E : (Z.min (b + bs) (Z.of_nat (length subtitles))
               <? Z.of_nat (length subtitles)) = true) by lia.
  rewrite E. now apply sleep_fails.
Qed.

Lemma translate_subtitles_run (subtitles : list nat) model cs bs delay pb
    starts w :
  range_step 0 (Z.of_nat (length subtitles)) bs = inr starts ->
  Forall (fun b => 0 <= b) starts ->
  starts = [] \/ (0 <= delay)%Q ->
  translate_subtitles chat subtitles model cs bs delay pb w
  = inr (subtitles,
         run_world chat subtitles model cs bs delay pb starts w).
Proof.
  intros Hs Hpos Hd. unfold translate_subtitles, run_world. cbv zeta.
  rewrite bind_emit. unfold bind at 1, lift at 1. rewrite Hs.
  erewrite bind_run.
  2:{ apply for_each_fold. intros b w' Hb.
      destruct Hd as [->|Hd]; [destruct Hb|].
      apply translate_batch_run; [exact Hd|].
      rewrite Forall_forall in Hpos. now apply Hpos. }
  reflexivity.
Qed.

Lemma range_step_pos n bs :
  0 < bs ->
  range_step 0 n bs = inr (map (fun k => k * bs) (seqZ 0 (batch_count n bs))).
Proof.
  intros H. unfold range_step, batch_count.
  assert (E0 : (bs =? 0) = false) by lia. assert (E1 : (0 <? bs) = true) by lia.
  rewrite E0, E1. do 2 f_equal. now rewrite Z.sub_0_r.
Qed.

Lemma range_step_neg n bs :
  0 <= n -> bs < 0 -> range_step 0 n bs = inr [].
Proof.
  intros Hn H. unfold range_step.
  assert (E0 : (bs =? 0) = false) by lia. assert (E1 : (0 <? bs) = false) by lia.
  rewrite E0, E1.
  assert (Hq : (0 - n - bs - 1) / - bs <= 0).
  { assert ((0 - n - bs - 1) / - bs < 1); [|lia].
    apply Z.div_lt_upper_bound; lia. }
  unfold seqZ. replace (Z.to_nat ((0 - n - bs - 1) / - bs)) with 0%nat by lia.
  reflexivity.
Qed.

Lemma range_step_total n bs :
  0 <= n -> bs <> 0 ->
  exists starts, range_step 0 n bs = inr starts /\
                 Forall (fun b => 0 <= b) starts.
Proof.
  intros Hn Hbs. destruct (Z.lt_trichotomy bs 0) as [H|[H|H]]; [|easy|].
  - exists []. split; [now apply range_step_neg | constructor].
  - eexists. split; [now apply range_step_pos|].
    apply Forall_forall. intros b Hb. apply in_map_iff in Hb as (k & <- & Hk).
    apply list_elem_of_In, elem_of_seqZ in Hk. nia.
Qed.

Lemma fold_left_inv {A St} (f : St -> A -> St) (P : nat -> St -> Prop) xs s :
  P 0%nat s ->
  (forall i x s, xs !! i = Some x -> P i s -> P (S i) (f s x)) ->
  P (length xs) (fold_left f xs s).
Proof.
  revert P s. induction xs as [|x xs IH]; intros P s H0 Hstep; [exact H0|].
  simpl. apply (IH (fun i => P (S i))).
  - now apply (Hstep 0%nat).
  - intros i y s' Hy. now apply (Hstep (S i)).
Qed.

Lemma batch_count_bounds n bs :
  0 <= n -> 0 < bs ->
  0 <= batch_count n bs /\ n <= batch_count n bs * bs
  /\ (forall k, 0 <= k < batch_count n bs -> k * bs < n).
Proof.
  intros Hn Hbs. unfold batch_count.
  pose proof (Z.mul_div_le (n + bs - 1) bs Hbs) as H1.
  pose proof (Z.mul_succ_div_gt (n + bs - 1) bs Hbs) as H2.
  repeat split.
  - apply Z.div_pos; lia.
  - nia.
  - intros k Hk. nia.
Qed.

Lemma batch_start_of k bs i :
  0 < bs -> 0 <= i < bs -> (k * bs + i) / bs * bs = k * bs.
Proof.
  intros Hbs Hi. f_equal. symmetry.
  apply (Z.div_unique (k * bs + i) bs k i); lia.
Qed.

Section Invariant.

Variables (subtitles : list nat) (model : list N) (cs bs : Z) (delay : Q)
          (pb : bool).
Hypothesis bs_pos : 0 < bs.

Let n := Z.of_nat (length subtitles).

(** An invariant of the items, indexed by the number of items done,
    that no event other than a request touches. *)
Variable P : Z -> world -> Prop.
Hypothesis P_item : forall i w,
  0 <= i < n -> P i w ->
  P (i + 1) (item_world chat subtitles model cs pb (i / bs * bs) w i).
Hypothesis P_quiet : forall i w e,
  match e with EChat _ _ _ => False | _ => True end ->
  P i w -> P i (World (heap w) (log w ++ [e])).

Lemma batch_inv k w :
  0 <= k -> k * bs < n -> P (k * bs) w ->
  P (Z.min (k * bs + bs) n)
    (batch_world chat subtitles model cs bs delay pb w (k * bs)).
Proof.
  intros Hk Hlt Hw. unfold batch_world. cbv zeta. fold n.
  set (e := Z.min (k * bs + bs) n).
  assert (He : k * bs < e) by (unfold e; lia).
  assert (Hfold : P e (fold_left
            (item_world chat subtitles model cs pb (k * bs))
            (range (k * bs) e) w)).
  { pose proof (fold_left_inv
        (item_world chat subtitles model cs pb (k * bs))
        (fun i w => P (k * bs + Z.of_nat i) w) (range (k * bs) e) w) as H.
    cbv beta in H. rewrite length_range in H.
    replace (k * bs + Z.of_nat (Z.to_nat (e - k * bs))) with e in H by lia.
    apply H.
    - now rewrite Z.add_0_r.
    - intros i x w' Hx Hw'. unfold range in Hx.
      apply lookup_seqZ in Hx as [-> Hi].
      replace (k * bs + Z.of_nat (S i)) with (k * bs + Z.of_nat i + 1) by lia.
      assert (Hr : 0 <= k * bs + Z.of_nat i < n) by (unfold e in *; lia).
      pose proof (P_item _ _ Hr Hw') as Hs.
      rewrite batch_start_of in Hs by (unfold e in *; lia). exact Hs. }
  destruct (e <? n); [|exact Hfold].
  now apply P_quiet.
Qed.

Lemma run_inv w :
  P 0 w ->
  P n (run_world chat subtitles model cs bs delay pb
         (map (fun k => k * bs) (seqZ 0 (batch_count n bs))) w).
Proof.
  intros Hw. unfold run_world. cbv zeta.
  apply P_quiet; [exact I|].
  destruct (batch_count_bounds n bs) as (Hc0 & Hcn & Hck); [lia | exact bs_pos |].
  pose proof (fold_left_inv
      (batch_world chat subtitles model cs bs delay pb)
      (fun i w => P (Z.min (Z.of_nat i * bs) n) w)
      (map (fun k => k * bs) (seqZ 0 (batch_count n bs)))
      (World (heap w) (log w ++ [EPlaceholder]))) as H.
  cbv beta in H. rewrite length_map, length_seqZ in H.
  replace (Z.min (Z.of_nat (Z.to_nat (batch_count n bs)) * bs) n) with n in H by lia.
  apply H.
  - replace (Z.min (Z.of_nat 0 * bs) n) with 0 by lia.
    now apply P_quiet.
  - intros i x w' Hx Hw'.
    rewrite list_lookup_fmap in Hx.
    destruct (seqZ 0 (batch_count n bs) !! i) as [k|] eqn:Ek; [|discriminate].
    apply lookup_seqZ in Ek as [-> Hi]. simpl in Hx. injection Hx as <-.
    rewrite Z.add_0_l.
    assert (Hlt : Z.of_nat i * bs < n) by (apply Hck; lia).
    replace (Z.min (Z.of_nat (S i) * bs) n)
      with (Z.min (Z.of_nat i * bs + bs) n) by lia.
    apply batch_inv; [lia | exact Hlt |].
    now replace (Z.min (Z.of_nat i * bs) n) with (Z.of_nat i * bs) in Hw' by lia.
Qed.

End Invariant.

Lemma chats_app l1 l2 : chats (l1 ++ l2) = chats l1 ++ chats l2.
Proof. unfold chats. apply flat_map_app. Qed.

Lemma chats_quiet lg e :
  match e with EChat _ _ _ => False | _ => True end ->
  chats (lg ++ [e]) = chats lg.
Proof.
  intros H. rewrite chats_app. destruct e; try easy; simpl; apply app_nil_r.
Qed.

Lemma chats_item subtitles model cs pb b w i :
  exists r,
    r = chat (log w) model
          (build_messages (sub_text (heap w (obj subtitles i)))
             (context_of (heap w) subtitles (context_indices cs b i)))
    /\ chats (log (item_world chat subtitles model cs pb b w i))
       = chats (log w)
         ++ [(model,
              build_messages (sub_text (heap w (obj subtitles i)))
                (context_of (heap w) subtitles (context_indices cs b i)),
              r)]
    /\ heap (item_world chat subtitles model cs pb b w i)
       = <[obj subtitles i :=
             set_text (outcome r (sub_text (heap w (obj subtitles i))))
                      (heap w (obj subtitles i))]> (heap w).
Proof.
  eexists. split; [reflexivity|]. unfold item_world. cbn [log heap].
  split; [|reflexivity].
  rewrite chats_app. f_equal.
  destruct (chat _ _ _), pb; reflexivity.
Qed.

(** *** Identifiers and timestamps are never written *)

Section Frame.

Variables (subtitles : list nat) (model : list N) (cs bs : Z) (delay : Q)
          (pb : bool) (w0 : world).

Lemma same_keys_item b w i :
  same_keys w0 w -> same_keys w0 (item_world chat subtitles model cs pb b w i).
Proof.
  intros H d. destruct (chats_item subtitles model cs pb b w i) as (r & _ & _ & ->).
  destruct (decide (obj subtitles i = d)) as [<-|Hne].
  - rewrite fn_lookup_insert. apply H.
  - rewrite fn_lookup_insert_ne by exact Hne. apply H.
Qed.

Lemma same_keys_run :
  0 < bs ->
  same_keys w0 (run_world chat subtitles model cs bs delay pb
               (map (fun k => k * bs)
                    (seqZ 0 (batch_count (Z.of_nat (length subtitles)) bs)))
               w0).
Proof.
  intros Hbs.
  apply (run_inv subtitles model cs bs delay pb Hbs (fun _ w => same_keys w0 w)).
  - intros i w _. apply same_keys_item.
  - intros _ w e _ H. exact H.
  - intros d. now split.
Qed.

End Frame.

(** *** The requests of a run over distinct objects *)

Lemma obj_lookup (subtitles : list nat) i :
  0 <= i < Z.of_nat (length subtitles) ->
  subtitles !! Z.to_nat i = Some (obj subtitles i).
Proof.
  intros H. unfold obj.
  destruct (lookup_lt_is_Some_2 subtitles (Z.to_nat i)) as [d Hd]; [lia|].
  now rewrite Hd.
Qed.

Lemma obj_inj (subtitles : list nat) i j :
  NoDup subtitles ->
  0 <= i < Z.of_nat (length subtitles) ->
  0 <= j < Z.of_nat (length subtitles) ->
  obj subtitles i = obj subtitles j -> i = j.
Proof.
  intros Hnd Hi Hj E.
  pose proof (obj_lookup subtitles i Hi) as Li.
  pose proof (obj_lookup subtitles j Hj) as Lj. rewrite <- E in Lj.
  pose proof (NoDup_lookup subtitles _ _ _ Hnd Li Lj). lia.
Qed.

Lemma context_of_ext h h' (subtitles : list nat) js :
  (forall j, In j js ->
     sub_text (h (obj subtitles j)) = sub_text (h' (obj subtitles j))) ->
  context_of h subtitles js = context_of h' subtitles js.
Proof.
  intros H. unfold context_of. apply map_ext_in. intros j Hj.
  now rewrite (H j Hj).
Qed.

Lemma batch_start_le i bs : 0 < bs -> 0 <= i -> 0 <= i / bs * bs <= i.
Proof.
  intros Hbs Hi. pose proof (Z.mul_div_le i bs Hbs).
  pose proof (Z.div_pos i bs Hi Hbs). nia.
Qed.

Section Calls.

Variables (subtitles : list nat) (model : list N) (cs bs : Z) (delay : Q)
          (pb : bool) (w0 : world).
Hypothesis bs_pos : 0 < bs.
Hypothesis distinct : NoDup subtitles.

Let n := Z.of_nat (length subtitles).

Lemma request_of_ext h h' i :
  0 <= i ->
  (forall j, 0 <= j < i ->
     sub_text (h (obj subtitles j)) = sub_text (h' (obj subtitles j))) ->
  request_of subtitles cs bs (heap w0) h i
  = request_of subtitles cs bs (heap w0) h' i.
Proof.
  intros Hi H. unfold request_of. f_equal. apply context_of_ext.
  intros j Hj. apply H.
  eapply context_indices_bounds; [|exact Hj]. now apply batch_start_le.
Qed.

Lemma calls_ok_item calls k w :
  0 <= k < n ->
  calls_ok subtitles model cs bs w0 calls k w ->
  exists call,
    calls_ok subtitles model cs bs w0 (calls ++ [call]) (k + 1)
      (item_world chat subtitles model cs pb (k / bs * bs) w k).
Proof.
  intros Hk (Hlater & Hlog & Hlen & Hcalls).
  destruct (chats_item subtitles model cs pb (k / bs * bs) w k)
    as (r & _ & Hchats & Hheap).
  set (w' := item_world chat subtitles model cs pb (k / bs * bs) w k) in *.
  clearbody w'.
  assert (Hother : forall j, 0 <= j < n -> j <> k ->
            heap w' (obj subtitles j) = heap w (obj subtitles j)).
  { intros j Hj Hne. rewrite Hheap. apply fn_lookup_insert_ne.
    intros E. apply Hne. symmetry. now apply (obj_inj subtitles k j). }
  eexists. repeat split.
  - intros i Hi. rewrite Hother by (fold n in Hi; lia). apply Hlater. lia.
  - rewrite Hchats, Hlog, <- app_assoc. reflexivity.
  - rewrite length_app. simpl. lia.
  - intros i Hi. destruct (Z.eq_dec i k) as [->|Hne].
    + exists r. split.
      * replace (Z.to_nat k) with (length calls + 0)%nat by lia.
        rewrite lookup_app_r by lia.
        replace (length calls + 0 - length calls)%nat with 0%nat by lia.
        simpl. do 3 f_equal. unfold request_of.
        rewrite (Hlater k) by (fold n; lia). f_equal.
        apply context_of_ext. intros j Hj.
        apply (context_indices_bounds cs (k / bs * bs) k) in Hj;
          [|apply batch_start_le; lia].
        rewrite Hother by lia. reflexivity.
      * rewrite Hheap, fn_lookup_insert. cbn [sub_text set_text].
        rewrite (Hlater k) by (fold n; lia). reflexivity.
    + destruct (Hcalls i) as (ri & Hi1 & Hi2); [lia|].
      exists ri. split.
      * rewrite lookup_app_l by lia. rewrite Hi1. do 3 f_equal.
        apply request_of_ext; [lia|]. intros j Hj.
        rewrite Hother by lia. reflexivity.
      * rewrite Hother by lia. exact Hi2.
Qed.

Lemma calls_ok_quiet calls k w e :
  match e with EChat _ _ _ => False | _ => True end ->
  calls_ok subtitles model cs bs w0 calls k w ->
  calls_ok subtitles model cs bs w0 calls k (World (heap w) (log w ++ [e])).
Proof.
  intros He (H1 & H2 & H3 & H4). repeat split; try assumption.
  cbn [log]. now rewrite chats_quiet.
Qed.

Lemma calls_ok_run :
  exists calls,
    calls_ok subtitles model cs bs w0 calls n
      (run_world chat subtitles model cs bs delay pb
         (map (fun k => k * bs) (seqZ 0 (batch_count n bs))) w0).
Proof.
  apply (run_inv subtitles model cs bs delay pb bs_pos
           (fun k w => exists calls,
                calls_ok subtitles model cs bs w0 calls k w)).
  - intros i w Hi (calls & H).
    destruct (calls_ok_item calls i w Hi H) as (call & H'). eauto.
  - intros i w e He (calls & H). exists calls. now apply calls_ok_quiet.
  - exists []. repeat split.
    + now rewrite app_nil_r.
    + intros i Hi. lia.
Qed.

End Calls.

(** *** The schedule of a run *)

Section Schedule.

Variables (subtitles : list nat) (model : list N) (cs bs : Z) (delay : Q)
          (pb : bool).

Let n := Z.of_nat (length subtitles).

Lemma marks_app l1 l2 : marks (l1 ++ l2) = marks l1 ++ marks l2.
Proof. unfold marks. apply flat_map_app. Qed.

Lemma marks_item b w i :
  marks (log (item_world chat subtitles model cs pb b w i))
  = marks (log w) ++ [Item (i + 1)].
Proof.
  unfold item_world. cbn [log]. rewrite marks_app. f_equal.
  destruct (chat _ _ _), pb; reflexivity.
Qed.

Lemma marks_fold {A} (f : world -> A -> world) (g : A -> list mark) xs w :
  (forall w x, marks (log (f w x)) = marks (log w) ++ g x) ->
  marks (log (fold_left f xs w)) = marks (log w) ++ flat_map g xs.
Proof.
  intros H. revert w. induction xs as [|x xs IH]; intros w; simpl.
  - now rewrite app_nil_r.
  - now rewrite IH, H, <- app_assoc.
Qed.

Lemma flat_map_singleton {A B} (f : A -> B) l :
  flat_map (fun x => [f x]) l = map f l.
Proof. induction l as [|x l IH]; simpl; [reflexivity | now rewrite IH]. Qed.

Lemma marks_batch w b :
  marks (log (batch_world chat subtitles model cs bs delay pb w b))
  = marks (log w)
    ++ (map (fun i => Item (i + 1)) (range b (Z.min (b + bs) n))
        ++ (if Z.min (b + bs) n <? n then [Pause delay] else [])).
Proof.
  unfold batch_world. cbv zeta. fold n.
  assert (H : marks (log (fold_left
                 (item_world chat subtitles model cs pb b)
                 (range b (Z.min (b + bs) n)) w))
              = marks (log w)
                ++ map (fun i => Item (i + 1)) (range b (Z.min (b + bs) n))).
  { rewrite (marks_fold _ (fun i => [Item (i + 1)]))
      by (intros w' i; apply marks_item).
    now rewrite flat_map_singleton. }
  destruct (_ <? _).
  - cbn [log]. now rewrite marks_app, H, <- app_assoc.
  - now rewrite H, app_nil_r.
Qed.

Lemma marks_run starts w :
  marks (log (run_world chat subtitles model cs bs delay pb starts w))
  = marks (log w)
    ++ flat_map
         (fun b => map (fun i => Item (i + 1)) (range b (Z.min (b + bs) n))
                   ++ (if Z.min (b + bs) n <? n then [Pause delay] else []))
         starts.
Proof.
  unfold run_world. cbv zeta. cbn [log].
  rewrite marks_app. cbn [marks flat_map]. rewrite app_nil_r.
  rewrite (marks_fold _ _ _ _ (fun w b => marks_batch w b)).
  cbn [log]. rewrite marks_app. cbn [marks flat_map app].
  now rewrite app_nil_r.
Qed.

Lemma flat_map_map {A B C} (f : A -> B) (g : B -> list C) l :
  flat_map g (map f l) = flat_map (fun x => g (f x)) l.
Proof. induction l as [|x l IH]; simpl; [reflexivity | now rewrite IH]. Qed.

Lemma map_succ_seqZ a len :
  map (fun i => Item (i + 1)) (seqZ a len) = map Item (seqZ (a + 1) len).
Proof.
  destruct (Z.le_gt_cases len 0) as [H|H].
  - now rewrite !seqZ_nil by exact H.
  - rewrite <- (Z2Nat.id len) by lia. generalize (Z.to_nat len). clear H.
    intros m. revert a. induction m as [|m IH]; intros a; [reflexivity|].
    assert (Hm : 0 < Z.of_nat (S m)) by lia.
    rewrite (seqZ_cons a _ Hm), (seqZ_cons (a + 1) _ Hm).
    replace (Z.pred (Z.of_nat (S m))) with (Z.of_nat m) by lia.
    cbn [map]. f_equal. apply IH.
Qed.

Lemma marks_run_schedule w :
  0 < bs ->
  marks (log (run_world chat subtitles model cs bs delay pb
                (map (fun k => k * bs) (seqZ 0 (batch_count n bs))) w))
  = marks (log w) ++ spec_schedule n bs delay.
Proof.
  intros Hbs. rewrite marks_run. f_equal. unfold spec_schedule.
  rewrite flat_map_map.
  destruct (batch_count_bounds n bs) as (Hc0 & Hcn & Hck); [lia | exact Hbs |].
  apply flat_map_ext_Forall with (P := fun k => 0 <= k < batch_count n bs).
  - intros k Hk. pose proof (Hck k Hk) as Hkn. f_equal.
    + unfold range. rewrite map_succ_seqZ. do 2 f_equal. lia.
    + destruct (Z.ltb_spec (Z.min (k * bs + bs) n) n) as [H|H];
        destruct (Z.ltb_spec (k + 1) (batch_count n bs)) as [H'|H'];
        try reflexivity; exfalso.
      * nia.
      * assert ((k + 1) * bs < n) by (apply Hck; lia). lia.
  - apply Forall_forall. intros k Hk.
    apply list_elem_of_In, elem_of_seqZ in Hk. lia.
Qed.

Lemma pauses_app l1 l2 : pauses (l1 ++ l2) = (pauses l1 + pauses l2)%nat.
Proof. unfold pauses. now rewrite List.filter_app, length_app. Qed.

Lemma pauses_items (l : list Z) : pauses (map Item l) = 0%nat.
Proof. induction l as [|x l IH]; [reflexivity | exact IH]. Qed.

Lemma pauses_batches (g : Z -> list Z) c (m : nat) a :
  pauses (flat_map
            (fun k => map Item (g k) ++ (if k + 1 <? c then [Pause delay] else []))
            (seqZ a (Z.of_nat m)))
  = Z.to_nat (Z.min (a + Z.of_nat m) (c - 1) - a).
Proof.
  revert a. induction m as [|m IH]; intros a.
  - rewrite seqZ_nil by lia. cbn [flat_map pauses List.filter length]. lia.
  - assert (Hm : 0 < Z.of_nat (S m)) by lia.
    rewrite (seqZ_cons a _ Hm). cbn [flat_map].
    replace (Z.pred (Z.of_nat (S m))) with (Z.of_nat m) by lia.
    rewrite pauses_app, pauses_app, pauses_items, IH.
    destruct (Z.ltb_spec (a + 1) c); cbn; lia.
Qed.

Lemma pauses_schedule :
  0 < bs -> pauses (spec_schedule n bs delay) = Z.to_nat (batch_count n bs - 1).
Proof.
  intros Hbs. unfold spec_schedule.
  destruct (batch_count_bounds n bs) as (Hc0 & _); [lia | exact Hbs |].
  pose proof (pauses_batches
                (fun k => seqZ (k * bs + 1) (Z.min bs (n - k * bs)))
                (batch_count n bs) (Z.to_nat (batch_count n bs)) 0) as H.
  rewrite Z2Nat.id in H by exact Hc0. rewrite H. lia.
Qed.

End Schedule.

Lemma translate_subtitles_pos (subtitles : list nat) model cs bs delay pb w :
  0 < bs -> (0 <= delay)%Q ->
  translate_subtitles chat subtitles model cs bs delay pb w
  = inr (subtitles,
         run_world chat subtitles model cs bs delay pb
           (map (fun k => k * bs)
                (seqZ 0 (batch_count (Z.of_nat (length subtitles)) bs))) w).
Proof.
  intros Hbs Hd. apply translate_subtitles_run.
  - now apply range_step_pos.
  - apply Forall_forall. intros b Hb. apply in_map_iff in Hb as (k & <- & Hk).
    apply list_elem_of_In, elem_of_seqZ in Hk. nia.
  - now right.
Qed.

Lemma translate_subtitles_neg (subtitles : list nat) model cs bs delay pb w :
  bs < 0 ->
  translate_subtitles chat subtitles model cs bs delay pb w
  = inr (subtitles, run_world chat subtitles model cs bs delay pb [] w).
Proof.
  intros Hbs. apply translate_subtitles_run; [|constructor|now left].
  apply range_step_neg; lia.
Qed.

(** The run over distinct objects, with its requests. *)
Lemma translate_subtitles_calls (subtitles : list nat) model cs bs delay pb w0 :
  0 < bs -> (0 <= delay)%Q -> NoDup subtitles ->
  exists w' calls,
    translate_subtitles chat subtitles model cs bs delay pb w0
    = inr (subtitles, w')
    /\ calls_ok subtitles model cs bs w0 calls
         (Z.of_nat (length subtitles)) w'.
Proof.
  intros Hbs Hd Hnd.
  destruct (calls_ok_run subtitles model cs bs delay pb w0 Hbs Hnd)
    as (calls & H).
  eexists _, calls. split; [now apply translate_subtitles_pos | exact H].
Qed.

Lemma context_of_translated h (subtitles : list nat) js :
  map translated (context_of h subtitles js)
  = map (fun j => sub_text (h (obj subtitles j))) js.
Proof. unfold context_of. rewrite map_map. reflexivity. Qed.

Lemma context_of_original h (subtitles : list nat) js :
  map original (context_of h subtitles js)
  = map (fun j => sub_text (h (obj subtitles j))) js.
Proof. unfold context_of. rewrite map_map. reflexivity. Qed.

End Loops.

(** * The properties of the specification *)

Lemma delay_half_ok : (0 <= 1 # 2)%Q.
Proof. unfold Qle. simpl. lia. Qed.





(** The second record of the demonstration run, whose request fails,
    keeps its text; the two others hold the trimmed answer. *)
Example flaky_run_texts :
  match translate_subtitles flaky_chat [0; 1; 2]%nat (lit "gemma3:1b") 3 2
                            (1 # 2) true demo_world with
  | inr (result, w') => map (fun d => sub_text (heap w' d)) result
  | inl _ => []
  end = [lit "Salam"; lit "World"; lit "Salam"].
Proof. vm_compute. reflexivity. Qed.

Lemma build_messages_turns text previous_context :
  build_messages text previous_context
  = [Message System SYSTEM_PROMPT]
    ++ context_turns previous_context
    ++ [Message User (instruction text)].
Proof. unfold build_messages. now destruct previous_context. Qed.

Lemma context_indices_seam cs b :
  0 < b -> context_indices cs b b = range (Z.max 0 (b - cs)) b.
Proof.
  intros H. unfold context_indices.
  assert (E1 : (b =? b) = true) by lia. assert (E2 : (0 <? b) = true) by lia.
  now rewrite E1, E2.
Qed.

Lemma context_indices_inside cs b i :
  i <> b -> context_indices cs b i = range (Z.max b (i - cs)) i.
Proof.
  intros H. unfold context_indices.
  assert (E1 : (i =? b) = false) by lia. now rewrite E1.
Qed.





(** Every request of a run over distinct records (positive batch
    size, delay not negative): the system instruction, the turns of
    the context, the current text.  Both
    keys of a context pair are read from the same object after its
    text was replaced, so the user turn of a pair wraps the
    translation, not the source text. *)
Lemma requests_of_run
    (chat : list event -> list N -> list message -> option (list N))
    (subtitles : list nat) model cs bs delay pb w0 :
  0 < bs -> (0 <= delay)%Q -> NoDup subtitles ->
  exists w' calls,
    translate_subtitles chat subtitles model cs bs delay pb w0
    = inr (subtitles, w')
    /\ chats (log w') = chats (log w0) ++ calls
    /\ forall i, 0 <= i < Z.of_nat (length subtitles) ->
         exists previous_context response,
           calls !! Z.to_nat i
           = Some (model,
                   [Message System SYSTEM_PROMPT]
                   ++ context_turns previous_context
                   ++ [Message User
                         (instruction (sub_text (heap w0 (obj subtitles i))))],
                   response)
           /\ map original previous_context = map translated previous_context
           /\ map translated previous_context
              = map (fun j => sub_text (heap w' (obj subtitles j)))
                    (context_indices cs (i / bs * bs) i).
Proof.
  intros Hbs Hdelay Hnd.
  destruct (translate_subtitles_calls chat subtitles model cs bs delay pb w0
              Hbs Hdelay Hnd) as (w' & calls & Hrun & _ & Hlog & _ & Hcalls).
  exists w', calls. repeat split; [exact Hrun | exact Hlog |].
  intros i Hi. destruct (Hcalls i) as (r & Hc & _); [lia|].
  unfold request_of in Hc. rewrite build_messages_turns in Hc.
  eexists _, r. split; [exact Hc|]. split.
  - now rewrite context_of_original, context_of_translated.
  - apply context_of_translated.
Qed.

(** C6 at a concrete run: two records "Hello" and "World", a service
    that answers "Salam".  The second request presents "Salam", the
    translation, as the text that was translated into "Salam"; the
    source text "Hello" of the first record is not in it. *)
Theorem context_turn_wraps_translation :
  exists w',
    translate_subtitles steady_chat [0; 1]%nat (lit "gemma3:1b") 3 10 (1 # 2)
                        false demo_world
    = inr ([0; 1]%nat, w')
    /\ sub_text (heap demo_world 0%nat) = lit "Hello"
    /\ chats (log w') !! 1%nat
       = Some (lit "gemma3:1b",
               [Message System SYSTEM_PROMPT;
                Message User (instruction (lit "Salam"));
                Message Assistant (lit "Salam");
                Message User (instruction (lit "World"))],
               Some (lit "Salam")).
Proof.
  eexists. split; [|split].
  - rewrite translate_subtitles_pos; [reflexivity | lia | exact delay_half_ok].
  - reflexivity.
  - vm_compute. reflexivity.
Qed.



(** The schedule of the demonstration run, computed. *)
Example demo_run_marks :
  match translate_subtitles flaky_chat [0; 1; 2]%nat (lit "gemma3:1b") 3 2
                            (1 # 2) true demo_world with
  | inr (_, w') => marks (log w')
  | inl _ => []
  end = [Item 1; Item 2; Pause (1 # 2); Item 3].
Proof. vm_compute. reflexivity. Qed.



Lemma range_increasing lo hi : increasing (range lo hi).
Proof.
  intros p q x y Hpq Hp Hq. unfold range in *.
  apply lookup_seqZ in Hp as [-> _]. apply lookup_seqZ in Hq as [-> _]. lia.
Qed.

(** C10: for a positive context size, whatever the batch size, the
    batch start and the position, the context built for a request has
    at most [context_size] pairs, drawn from positions that increase
    strictly and all lie before the position translated. *)
Theorem context_window_bounded
    (h : nat -> subtitle) (subtitles : list nat) (cs b i : Z) :
  0 < cs ->
  Z.of_nat (length (context_of h subtitles (context_indices cs b i))) <= cs
  /\ increasing (context_indices cs b i)
  /\ Forall (fun j => j < i) (context_indices cs b i).
Proof.
  intros Hcs. unfold context_of. rewrite length_map.
  unfold context_indices.
  destruct ((i =? b) && (0 <? b)) eqn:E.
  - apply andb_true_iff in E as [E1 E2].
    apply Z.eqb_eq in E1. subst i.
    split; [rewrite length_range; lia|].
    split; [apply range_increasing|].
    apply Forall_forall. intros j Hj. apply range_bounds in Hj. lia.
  - split; [rewrite length_range; lia|].
    split; [apply range_increasing|].
    apply Forall_forall. intros j Hj. apply range_bounds in Hj. lia.
Qed.

Lemma context_window_bounded_witness :
  0 < 3 /\
  Z.of_nat (length (context_of demo_heap [0; 1; 2]%nat (context_indices 3 10 12)))
  <= 3
  /\ increasing (context_indices 3 10 12)
  /\ Forall (fun j => j < 12) (context_indices 3 10 12).
Proof.
  split; [lia|].
  apply (context_window_bounded demo_heap [0; 1; 2]%nat 3 10 12). lia.
Defined.

(** * Further properties of the code *)

(** ** What [parse_srt] returns *)

Section ParsedRecords.

Lemma read_text_no_cr_step s :
  no_cr (read_text s) = true /\ forall c, no_cr (read_text (c :: s)) = true.
Proof.
  induction s as [|a s [IH1 IH2]].
  - split; [reflexivity|]. intros c. simpl.
    destruct (N.eqb c CR) eqn:E; simpl; [reflexivity | now rewrite E].
  - split; [apply IH2|]. intros c.
    change (read_text (c :: a :: s))
      with (if N.eqb c CR
            then NL :: (if is_nl a then read_text s else read_text (a :: s))
            else c :: read_text (a :: s)).
    destruct (N.eqb c CR) eqn:E.
    + destruct (is_nl a); simpl; [exact IH1 | apply IH2].
    + simpl. rewrite E. simpl. apply IH2.
Qed.

(** The text that [f.read()] returns holds no carriage return. *)
Lemma read_text_no_cr s : no_cr (read_text s) = true.
Proof. apply read_text_no_cr_step. Qed.

Lemma strip_forallb (P : N -> bool) s :
  forallb P s = true -> forallb P (strip s) = true.
Proof.
  intros H. destruct (strip_infix s) as (a & b & E). rewrite E in H.
  rewrite !forallb_app in H.
  apply andb_true_iff in H as [_ H]. now apply andb_true_iff in H as [H _].
Qed.

Lemma cons_head_forallb (P : N -> bool) c ps :
  P c = true ->
  Forall (fun p => forallb P p = true) ps ->
  Forall (fun p => forallb P p = true) (cons_head c ps).
Proof.
  intros Hc Hps. destruct ps as [|p ps]; simpl.
  - constructor; [simpl; now rewrite Hc | constructor].
  - constructor; [|exact (Forall_inv_tail Hps)].
    simpl. rewrite Hc. exact (Forall_inv Hps).
Qed.

Lemma re_split_forallb (P : N -> bool) b s :
  forallb P s = true ->
  Forall (fun p => forallb P p = true) (re_split_blank_from b s).
Proof.
  revert b. induction s as [|c s IH]; intros b H; simpl.
  - now constructor.
  - simpl in H. apply andb_true_iff in H as [Hc Hs].
    destruct (is_nl c); [destruct b; [now apply IH|destruct (head_is_nl s)]|].
    + constructor; [reflexivity | now apply IH].
    + apply cons_head_forallb; [exact Hc | now apply IH].
    + apply cons_head_forallb; [exact Hc | now apply IH].
Qed.

Lemma split_nl_forallb (P : N -> bool) s :
  forallb P s = true -> Forall (fun p => forallb P p = true) (split_nl s).
Proof.
  induction s as [|c s IH]; intros H; simpl.
  - now constructor.
  - simpl in H. apply andb_true_iff in H as [Hc Hs].
    destruct (is_nl c).
    + constructor; [reflexivity | now apply IH].
    + apply cons_head_forallb; [exact Hc | now apply IH].
Qed.

Lemma join_forallb (P : N -> bool) sep ls :
  forallb P sep = true ->
  Forall (fun p => forallb P p = true) ls ->
  forallb P (join sep ls) = true.
Proof.
  intros Hsep. induction 1 as [|l ls Hl Hls IH]; [reflexivity|].
  destruct ls as [|l' ls]; [exact Hl|].
  change (join sep (l :: l' :: ls)) with (l ++ sep ++ join sep (l' :: ls)).
  rewrite !forallb_app, Hl, Hsep. exact IH.
Qed.

(** No line of a split holds a newline. *)
Lemma split_nl_no_nl s : Forall (fun l => no_nl l = true) (split_nl s).
Proof.
  induction s as [|c s IH]; simpl; [now constructor|].
  destruct (is_nl c) eqn:E; [now constructor|].
  apply cons_head_forallb; [now rewrite E | exact IH].
Qed.

Lemma split_nl_join ls :
  ls <> [] -> Forall (fun l => no_nl l = true) ls ->
  split_nl (join [NL] ls) = ls.
Proof.
  intros Hne H. induction H as [|l ls Hl Hls IH]; [easy|].
  destruct ls as [|l' ls].
  - simpl. clear IH Hls Hne. induction l as [|c l IHl]; [reflexivity|].
    simpl in *. apply andb_true_iff in Hl as [Hc Hl].
    apply negb_true_iff in Hc. now rewrite Hc, IHl.
  - change (join [NL] (l :: l' :: ls)) with (l ++ NL :: join [NL] (l' :: ls)).
    rewrite split_nl_app by exact Hl. now rewrite IH.
Qed.

Lemma join_nonempty ls :
  ls <> [] -> Forall (fun l => is_empty l = false) ls -> join [NL] ls <> [].
Proof.
  intros Hne H. destruct H as [|l ls Hl _]; [easy|].
  destruct l as [|c l]; [discriminate|]. now destruct ls.
Qed.

Lemma head_space_rev_suffix a t :
  t <> [] -> head_space (rev (a ++ t)) = head_space (rev t).
Proof.
  intros Hne. rewrite rev_app_distr.
  destruct (rev t) as [|c r] eqn:E; [|reflexivity].
  apply (f_equal (@rev N)) in E. rewrite rev_involutive in E. now subst.
Qed.

Lemma parse_block_ok block :
  nn_free block = true -> no_cr block = true ->
  Forall (fun r => record_ok r = true) (parse_block block).
Proof.
  intros Hnn Hcr. unfold parse_block.
  destruct (3 <=? length (block_lines block))%nat eqn:Elen; [|constructor].
  constructor; [|constructor].
  assert (Hne : strip block <> []).
  { intros E. unfold block_lines in Elen. now rewrite E in Elen. }
  pose proof (block_lines_nonempty block Hnn Hne) as Hlines.
  pose proof (split_nl_no_nl (strip block)) as Hnl.
  pose proof (split_nl_forallb _ _ (strip_forallb _ _ Hcr)) as Hcrs.
  pose proof (join_split_nl (strip block)) as Hjoin.
  pose proof (strip_head block) as Hh. pose proof (strip_last block) as Hl.
  unfold block_lines in *.
  destruct (split_nl (strip block)) as [|l0 [|l1 [|l2 rest]]]; try discriminate.
  cbn [nth skipn].
  set (text := join [NL] (l2 :: rest)) in *.
  assert (Hs : strip block = (l0 ++ NL :: l1 ++ [NL]) ++ text).
  { rewrite <- Hjoin. unfold text.
    change (join [NL] (l0 :: l1 :: l2 :: rest))
      with (l0 ++ [NL] ++ l1 ++ [NL] ++ join [NL] (l2 :: rest)).
    repeat (rewrite <- app_assoc; simpl). reflexivity. }
  apply Forall_cons_1 in Hlines as [E0 Hlines].
  apply Forall_cons_1 in Hlines as [E1 Hlines].
  apply Forall_cons_1 in Hnl as [N0 Hnl]. apply Forall_cons_1 in Hnl as [N1 Hnl].
  apply Forall_cons_1 in Hcrs as [C0 Hcrs]. apply Forall_cons_1 in Hcrs as [C1 Hcrs].
  change (no_cr l0 = true) in C0. change (no_cr l1 = true) in C1.
  change (no_nl l0 = true) in N0. change (no_nl l1 = true) in N1.
  assert (Htext : text <> []) by now apply join_nonempty.
  unfold record_ok, id_ok, timestamp_ok, text_ok. cbn [sub_id sub_timestamp sub_text].
  rewrite E0, E1, N0, N1, C0, C1. cbn [negb andb].
  assert (H0 : head_space l0 = false).
  { rewrite Hs in Hh. destruct l0; [discriminate | exact Hh]. }
  rewrite H0. cbn [negb andb].
  assert (Hx1 : lines_nonempty text = true).
  { unfold lines_nonempty, text. rewrite split_nl_join by easy.
    apply forallb_forall. intros l Hin. rewrite Forall_forall in Hlines.
    now rewrite (Hlines l Hin). }
  assert (Hx2 : no_cr text = true) by now apply join_forallb.
  assert (Hx3 : head_space (rev text) = false).
  { rewrite Hs, head_space_rev_suffix in Hl by exact Htext. exact Hl. }
  now rewrite Hx1, Hx2, Hx3.
Qed.

Lemma parsed_records_ok file :
  Forall (fun r => record_ok r = true) (parse_srt file).
Proof.
  unfold parse_srt, parse_content, subtitle_blocks, re_split_blank.
  pose proof (re_split_nn_free false (strip (read_text file))) as Hnn.
  pose proof (re_split_forallb _ false _
                (strip_forallb _ _ (read_text_no_cr file))) as Hcr.
  induction Hnn as [|b bs Hb _ IH]; [constructor|].
  simpl. apply Forall_app. split.
  - apply parse_block_ok; [exact Hb | exact (Forall_inv Hcr)].
  - apply IH. exact (Forall_inv_tail Hcr).
Qed.

(** X1: every record that [parse_srt] returns has a non-empty
    single-line id that does not start with white space, a non-empty
    single-line timestamp, and a text without empty line and without
    white space at its end; none of the three holds a carriage
    return. *)
Theorem parse_srt_records_ok file :
  Forall (fun r => record_ok r = true) (parse_srt file).
Proof. apply parsed_records_ok. Qed.

Lemma write_parse_ok p records :
  Forall (fun r => record_ok r = true) records ->
  parse_srt (write_srt p records) = records.
Proof.
  intros H. unfold parse_srt, write_srt.
  rewrite read_write_text by now apply write_content_no_cr.
  destruct records as [|r rs]; [reflexivity|].
  unfold parse_content, subtitle_blocks.
  rewrite strip_written by exact H. rewrite split_written by exact H.
  now apply parse_blocks_of.
Qed.

(** X2: writing the records of a parsed file and parsing the result
    gives the same records again, on either newline convention. *)
Theorem parse_write_parse p file :
  parse_srt (write_srt p (parse_srt file)) = parse_srt file.
Proof. apply write_parse_ok, parsed_records_ok. Qed.

End ParsedRecords.

(** ** Files without records, line endings, layout *)

Section Files.

Lemma read_text_forallb_step (P : N -> bool) s :
  P NL = true -> forallb P s = true ->
  forallb P (read_text s) = true
  /\ forall c, P c = true -> forallb P (read_text (c :: s)) = true.
Proof.
  intros HNL. induction s as [|a s IH]; intros Hs.
  - split; [reflexivity|]. intros c Hc. simpl.
    destruct (N.eqb c CR); simpl; [now rewrite HNL | now rewrite Hc].
  - simpl in Hs. apply andb_true_iff in Hs as [Ha Hs].
    destruct (IH Hs) as [IH1 IH2].
    split; [now apply IH2|]. intros c Hc.
    change (read_text (c :: a :: s))
      with (if N.eqb c CR
            then NL :: (if is_nl a then read_text s else read_text (a :: s))
            else c :: read_text (a :: s)).
    destruct (N.eqb c CR).
    + destruct (is_nl a); simpl; rewrite HNL; [exact IH1 | now apply IH2].
    + simpl. rewrite Hc. now apply IH2.
Qed.

Lemma dropwhile_all {A} (p : A -> bool) s :
  forallb p s = true -> dropwhile p s = [].
Proof.
  induction s as [|c s IH]; [reflexivity|]. simpl. intros H.
  apply andb_true_iff in H as [Hc Hs]. rewrite Hc. now apply IH.
Qed.

Lemma strip_all_space s : forallb isspace s = true -> strip s = [].
Proof.
  intros H. unfold strip, lstrip. now rewrite dropwhile_all.
Qed.

(** X3: a file that holds nothing but white space, the empty file
    included, has no record. *)
Theorem parse_srt_blank_file file :
  forallb isspace file = true -> parse_srt file = [].
Proof.
  intros H. unfold parse_srt, parse_content, subtitle_blocks.
  rewrite strip_all_space; [reflexivity|].
  now apply (read_text_forallb_step isspace file).
Qed.

Lemma parse_srt_blank_file_witness :
  forallb isspace [SP; CR; NL; 9%N; NL; NL] = true
  /\ parse_srt [SP; CR; NL; 9%N; NL; NL] = [].
Proof.
  split; [reflexivity|]. apply parse_srt_blank_file. reflexivity.
Defined.

Lemma write_text_posix s : write_text Posix s = s.
Proof.
  induction s as [|c s IH]; [reflexivity|].
  change (write_text Posix (c :: s))
    with ((if is_nl c then [NL] else [c]) ++ write_text Posix s).
  rewrite IH. destruct (is_nl c) eqn:E; [|reflexivity].
  apply is_nl_true in E. now subst.
Qed.

(** X4: the text that [write_srt] writes for a non-empty list is the
    three-line blocks of the records, joined by one empty line and
    ended by one newline: no blank line before the first record, none
    after the last. *)
Theorem write_srt_layout r rs :
  write_srt Posix (r :: rs) = join blank (map block_of (r :: rs)) ++ [NL].
Proof.
  unfold write_srt. rewrite write_text_posix. apply write_content_join.
Qed.

Lemma read_text_id s : no_cr s = true -> read_text s = s.
Proof.
  intros H. rewrite <- (write_text_posix s) at 1. now apply read_write_text.
Qed.

(** X5: a text without carriage return parses to the same records
    whether its lines end with a line feed or with carriage return and
    line feed. *)
Theorem parse_srt_crlf s :
  no_cr s = true ->
  parse_srt (write_text Windows s) = parse_srt (write_text Posix s).
Proof.
  intros H. unfold parse_srt. now rewrite !read_write_text.
Qed.

Lemma parse_srt_crlf_witness :
  no_cr (lit "1" ++ [NL] ++ lit "t" ++ [NL] ++ lit "Hi" ++ [NL]) = true
  /\ parse_srt (write_text Windows
                  (lit "1" ++ [NL] ++ lit "t" ++ [NL] ++ lit "Hi" ++ [NL]))
     = parse_srt (write_text Posix
                  (lit "1" ++ [NL] ++ lit "t" ++ [NL] ++ lit "Hi" ++ [NL])).
Proof.
  split; [reflexivity|]. apply parse_srt_crlf. reflexivity.
Defined.

End Files.

(** ** More on the driver *)

Section MoreDriver.

Variable chat : list event -> list N -> list message -> option (list N).

Section Invariant2.

Variables (subtitles : list nat) (model : list N) (cs bs : Z) (delay : Q)
          (pb : bool).
Hypothesis bs_pos : 0 < bs.

Let n := Z.of_nat (length subtitles).

(** As [run_inv], for an invariant that only the driver's own events
    need to preserve. *)
Variable P : Z -> world -> Prop.
Hypothesis P_item : forall i w,
  0 <= i < n -> P i w ->
  P (i + 1) (item_world chat subtitles model cs pb (i / bs * bs) w i).
Hypothesis P_event : forall i w e,
  driver_event delay e -> P i w -> P i (World (heap w) (log w ++ [e])).

Lemma batch_inv_events k w :
  0 <= k -> k * bs < n -> P (k * bs) w ->
  P (Z.min (k * bs + bs) n)
    (batch_world chat subtitles model cs bs delay pb w (k * bs)).
Proof.
  intros Hk Hlt Hw. unfold batch_world. cbv zeta. fold n.
  set (e := Z.min (k * bs + bs) n).
  assert (He : k * bs < e) by (unfold e; lia).
  assert (Hfold : P e (fold_left
            (item_world chat subtitles model cs pb (k * bs))
            (range (k * bs) e) w)).
  { pose proof (fold_left_inv
        (item_world chat subtitles model cs pb (k * bs))
        (fun i w => P (k * bs + Z.of_nat i) w) (range (k * bs) e) w) as H.
    cbv beta in H. rewrite length_range in H.
    replace (k * bs + Z.of_nat (Z.to_nat (e - k * bs))) with e in H by lia.
    apply H.
    - now rewrite Z.add_0_r.
    - intros i x w' Hx Hw'. unfold range in Hx.
      apply lookup_seqZ in Hx as [-> Hi].
      replace (k * bs + Z.of_nat (S i)) with (k * bs + Z.of_nat i + 1) by lia.
      assert (Hr : 0 <= k * bs + Z.of_nat i < n) by (unfold e in *; lia).
      pose proof (P_item _ _ Hr Hw') as Hs.
      rewrite batch_start_of in Hs by (unfold e in *; lia). exact Hs. }
  destruct (e <? n); [|exact Hfold].
  apply P_event; [right; now left | exact Hfold].
Qed.

Lemma run_inv_events w :
  P 0 w ->
  P n (run_world chat subtitles model cs bs delay pb
         (map (fun k => k * bs) (seqZ 0 (batch_count n bs))) w).
Proof.
  intros Hw. unfold run_world. cbv zeta.
  apply P_event; [right; now right|].
  destruct (batch_count_bounds n bs) as (Hc0 & Hcn & Hck); [lia | exact bs_pos |].
  pose proof (fold_left_inv
      (batch_world chat subtitles model cs bs delay pb)
      (fun i w => P (Z.min (Z.of_nat i * bs) n) w)
      (map (fun k => k * bs) (seqZ 0 (batch_count n bs)))
      (World (heap w) (log w ++ [EPlaceholder]))) as H.
  cbv beta in H. rewrite length_map, length_seqZ in H.
  replace (Z.min (Z.of_nat (Z.to_nat (batch_count n bs)) * bs) n) with n in H by lia.
  apply H.
  - replace (Z.min (Z.of_nat 0 * bs) n) with 0 by lia.
    apply P_event; [now left | exact Hw].
  - intros i x w' Hx Hw'.
    rewrite list_lookup_fmap in Hx.
    destruct (seqZ 0 (batch_count n bs) !! i) as [k|] eqn:Ek; [|discriminate].
    apply lookup_seqZ in Ek as [-> Hi]. simpl in Hx. injection Hx as <-.
    rewrite Z.add_0_l.
    assert (Hlt : Z.of_nat i * bs < n) by (apply Hck; lia).
    replace (Z.min (Z.of_nat (S i) * bs) n)
      with (Z.min (Z.of_nat i * bs + bs) n) by lia.
    apply batch_inv_events; [lia | exact Hlt |].
    now replace (Z.min (Z.of_nat i * bs) n) with (Z.of_nat i * bs) in Hw' by lia.
Qed.

End Invariant2.

Lemma errors_app l1 l2 : errors (l1 ++ l2) = (errors l1 + errors l2)%nat.
Proof. unfold errors. now rewrite List.filter_app, length_app. Qed.

Lemma failures_app l1 l2 :
  failures (l1 ++ l2) = (failures l1 + failures l2)%nat.
Proof. unfold failures. now rewrite List.filter_app, length_app. Qed.

Lemma progress_of_app l1 l2 :
  progress_of (l1 ++ l2) = progress_of l1 ++ progress_of l2.
Proof. unfold progress_of. apply flat_map_app. Qed.

Lemma errors_item subtitles model cs pb b w i :
  errors (log (item_world chat subtitles model cs pb b w i))
  = (errors (log w)
     + failures [(model,
                  build_messages (sub_text (heap w (obj subtitles i)))
                    (context_of (heap w) subtitles (context_indices cs b i)),
                  chat (log w) model
                    (build_messages (sub_text (heap w (obj subtitles i)))
                       (context_of (heap w) subtitles
                          (context_indices cs b i))))])%nat.
Proof.
  unfold item_world. cbn [log]. rewrite errors_app. f_equal.
  destruct (chat _ _ _), pb; reflexivity.
Qed.

Lemma progress_item subtitles model cs pb b w i :
  progress_of (log (item_world chat subtitles model cs pb b w i))
  = progress_of (log w)
    ++ (if pb then [(i + 1, Z.of_nat (length subtitles))] else []).
Proof.
  unfold item_world. cbn [log]. rewrite progress_of_app. f_equal.
  destruct (chat _ _ _), pb; reflexivity.
Qed.

Lemma driver_event_quiet delay e :
  driver_event delay e ->
  chats [e] = [] /\ errors [e] = 0%nat /\ progress_of [e] = [].
Proof. intros [->|[->| ->]]; now repeat split. Qed.

(** The requests of a run, whatever the objects of the list. *)
Lemma requests_run (subtitles : list nat) model cs bs delay pb w0 :
  0 < bs ->
  exists calls,
    let w' := run_world chat subtitles model cs bs delay pb
                (map (fun k => k * bs)
                     (seqZ 0 (batch_count (Z.of_nat (length subtitles)) bs)))
                w0 in
    chats (log w') = chats (log w0) ++ calls
    /\ length calls = length subtitles
    /\ Forall (call_from chat model) calls
    /\ errors (log w') = (errors (log w0) + failures calls)%nat.
Proof.
  intros Hbs.
  pose proof (run_inv_events subtitles model cs bs delay pb Hbs
    (fun k w => exists calls,
       chats (log w) = chats (log w0) ++ calls
       /\ length calls = Z.to_nat k
       /\ Forall (call_from chat model) calls
       /\ errors (log w) = (errors (log w0) + failures calls)%nat)) as H.
  cbv beta in H.
  assert (Hitem : forall i w,
    0 <= i < Z.of_nat (length subtitles) ->
    (exists calls,
       chats (log w) = chats (log w0) ++ calls
       /\ length calls = Z.to_nat i
       /\ Forall (call_from chat model) calls
       /\ errors (log w) = (errors (log w0) + failures calls)%nat) ->
    exists calls,
      chats (log (item_world chat subtitles model cs pb (i / bs * bs) w i))
      = chats (log w0) ++ calls
      /\ length calls = Z.to_nat (i + 1)
      /\ Forall (call_from chat model) calls
      /\ errors (log (item_world chat subtitles model cs pb (i / bs * bs) w i))
         = (errors (log w0) + failures calls)%nat).
  { intros i w Hi (calls & H1 & H2 & H3 & H4).
    destruct (chats_item chat subtitles model cs pb (i / bs * bs) w i)
      as (r & Hr & Hc & _).
    eexists (calls ++ [_]). split; [|split; [|split]].
    + rewrite Hc, H1, <- app_assoc. reflexivity.
    + rewrite length_app. simpl. lia.
    + apply Forall_app. split; [exact H3|].
      constructor; [|constructor]. split; [reflexivity|]. now exists (log w).
    + rewrite errors_item, failures_app, H4, <- Hr. lia. }
  assert (Hevent : forall (i : Z) w e,
    driver_event delay e ->
    (exists calls,
       chats (log w) = chats (log w0) ++ calls
       /\ length calls = Z.to_nat i
       /\ Forall (call_from chat model) calls
       /\ errors (log w) = (errors (log w0) + failures calls)%nat) ->
    exists calls,
      chats (log (World (heap w) (log w ++ [e]))) = chats (log w0) ++ calls
      /\ length calls = Z.to_nat i
      /\ Forall (call_from chat model) calls
      /\ errors (log (World (heap w) (log w ++ [e])))
         = (errors (log w0) + failures calls)%nat).
  { intros i w e He (calls & H1 & H2 & H3 & H4).
    destruct (driver_event_quiet delay e He) as (Q1 & Q2 & _).
    exists calls. cbn [log]. rewrite chats_app, errors_app, Q1, Q2, app_nil_r.
    repeat split; try assumption. lia. }
  destruct (H Hitem Hevent w0) as (calls & H1 & H2 & H3 & H4).
  { exists []. rewrite app_nil_r. repeat split; [constructor | cbn; lia]. }
  exists calls. cbv zeta. repeat split; try assumption. lia.
Qed.

Lemma progress_run (subtitles : list nat) model cs bs delay pb w0 :
  0 < bs ->
  progress_of
    (log (run_world chat subtitles model cs bs delay pb
            (map (fun k => k * bs)
                 (seqZ 0 (batch_count (Z.of_nat (length subtitles)) bs)))
            w0))
  = progress_of (log w0)
    ++ (if pb
        then map (fun i => (i, Z.of_nat (length subtitles)))
                 (seqZ 1 (Z.of_nat (length subtitles)))
        else []).
Proof.
  intros Hbs.
  apply (run_inv_events subtitles model cs bs delay pb Hbs
    (fun k w =>
       progress_of (log w)
       = progress_of (log w0)
         ++ (if pb
             then map (fun i => (i, Z.of_nat (length subtitles))) (seqZ 1 k)
             else []))).
  - intros i w Hi H. rewrite progress_item, H, <- app_assoc. f_equal.
    destruct pb; [|reflexivity].
    rewrite (seqZ_app 1 i 1) by lia. rewrite map_app. f_equal.
    rewrite (seqZ_cons (1 + i) 1), seqZ_nil by lia. cbn [map].
    now rewrite Z.add_comm.
  - intros i w e He H.
    destruct (driver_event_quiet delay e He) as (_ & _ & Q3).
    cbn [log]. now rewrite progress_of_app, Q3, app_nil_r.
  - destruct pb; cbn; now rewrite app_nil_r.
Qed.

Lemma obj_in (subtitles : list nat) i :
  0 <= i < Z.of_nat (length subtitles) -> In (obj subtitles i) subtitles.
Proof.
  intros H. apply list_elem_of_In, list_elem_of_lookup.
  exists (Z.to_nat i). now apply obj_lookup.
Qed.

Lemma frame_run (subtitles : list nat) model cs bs delay pb w0 d :
  0 < bs -> ~ In d subtitles ->
  heap (run_world chat subtitles model cs bs delay pb
          (map (fun k => k * bs)
               (seqZ 0 (batch_count (Z.of_nat (length subtitles)) bs)))
          w0) d
  = heap w0 d.
Proof.
  intros Hbs Hd.
  apply (run_inv_events subtitles model cs bs delay pb Hbs
           (fun _ w => heap w d = heap w0 d)).
  - intros i w Hi H.
    destruct (chats_item chat subtitles model cs pb (i / bs * bs) w i)
      as (r & _ & _ & ->).
    rewrite fn_lookup_insert_ne; [exact H|].
    intros E. apply Hd. rewrite <- E. now apply obj_in.
  - intros _ w e _ H. exact H.
  - reflexivity.
Qed.

Lemma log_fold_extends {A} (f : world -> A -> world) xs w :
  (forall w x, exists ext, log (f w x) = log w ++ ext) ->
  exists ext, log (fold_left f xs w) = log w ++ ext.
Proof.
  intros H. revert w. induction xs as [|x xs IH]; intros w; simpl.
  - exists []. now rewrite app_nil_r.
  - destruct (IH (f w x)) as (e2 & E2). destruct (H w x) as (e1 & E1).
    exists (e1 ++ e2). now rewrite E2, E1, <- app_assoc.
Qed.

Lemma log_run_bracket (subtitles : list nat) model cs bs delay pb starts w0 :
  exists mid,
    log (run_world chat subtitles model cs bs delay pb starts w0)
    = log w0 ++ EPlaceholder :: mid ++ [EClear].
Proof.
  unfold run_world. cbv zeta. cbn [log].
  destruct (log_fold_extends
              (batch_world chat subtitles model cs bs delay pb) starts
              (World (heap w0) (log w0 ++ [EPlaceholder]))) as (mid & E).
  - intros w b. unfold batch_world. cbv zeta.
    destruct (log_fold_extends
                (item_world chat subtitles model cs pb b)
                (range b (Z.min (b + bs) (Z.of_nat (length subtitles)))) w)
      as (ext & E).
    + intros w' i. unfold item_world. cbn [log]. eexists. reflexivity.
    + destruct (_ <? _); cbn [log].
      * exists (ext ++ [ESleep delay]). now rewrite E, <- app_assoc.
      * now exists ext.
  - exists mid. rewrite E. cbn [log].
    repeat (rewrite <- app_assoc; cbn [app]). reflexivity.
Qed.

End MoreDriver.

(** X7: for an empty list the driver makes no request and no pause: it
    opens the preview, clears it and returns the empty list. *)
Theorem translate_subtitles_empty
    (chat : list event -> list N -> list message -> option (list N))
    model cs bs delay pb w :
  bs <> 0 ->
  translate_subtitles chat [] model cs bs delay pb w
  = inr ([], World (heap w) (log w ++ [EPlaceholder; EClear])).
Proof.
  intros Hbs. destruct (Z.lt_trichotomy bs 0) as [H|[H|H]]; [|easy|].
  - rewrite translate_subtitles_neg by exact H. unfold run_world. cbn.
    now rewrite <- app_assoc.
  - assert (Hr : range_step 0 (Z.of_nat (length (@nil nat))) bs = inr []).
    { rewrite range_step_pos by exact H.
      replace (batch_count (Z.of_nat (length (@nil nat))) bs) with 0.
      - now rewrite (seqZ_nil 0 0) by lia.
      - unfold batch_count. cbn [length Z.of_nat]. symmetry.
        apply Z.div_small. lia. }
    rewrite (translate_subtitles_run chat [] model cs bs delay pb [] w Hr);
      [|constructor|now left].
    unfold run_world. cbn. try rewrite <- app_assoc; reflexivity.
Qed.

Lemma translate_subtitles_empty_witness :
  2 <> 0 /\
  translate_subtitles flaky_chat [] (lit "gemma3:1b") 3 2 (1 # 2) true demo_world
  = inr ([], World (heap demo_world)
                   (log demo_world ++ [EPlaceholder; EClear])).
Proof.
  split; [lia|]. apply (translate_subtitles_empty flaky_chat). lia.
Defined.

(** X8: a batch size of zero makes the driver raise [ValueError],
    whatever the list. *)
Theorem translate_subtitles_zero_batch
    (chat : list event -> list N -> list message -> option (list N))
    (subtitles : list nat) model cs delay pb w :
  translate_subtitles chat subtitles model cs 0 delay pb w = inl ValueError.
Proof. reflexivity. Qed.

(** X9: with a negative batch size the driver translates nothing: no
    request, no pause, the store as it was, the same list returned. *)
Theorem translate_subtitles_negative_batch
    (chat : list event -> list N -> list message -> option (list N))
    (subtitles : list nat) model cs bs delay pb w :
  bs < 0 ->
  translate_subtitles chat subtitles model cs bs delay pb w
  = inr (subtitles, World (heap w) (log w ++ [EPlaceholder; EClear])).
Proof.
  intros Hbs. rewrite translate_subtitles_neg by exact Hbs.
  unfold run_world. cbn. try rewrite <- app_assoc; reflexivity.
Qed.

Lemma translate_subtitles_negative_batch_witness :
  -1 < 0 /\
  translate_subtitles flaky_chat [0; 1; 2]%nat (lit "gemma3:1b") 3 (-1)
                      (1 # 2) true demo_world
  = inr ([0; 1; 2]%nat,
         World (heap demo_world) (log demo_world ++ [EPlaceholder; EClear])).
Proof.
  split; [lia|]. apply (translate_subtitles_negative_batch flaky_chat). lia.
Defined.













(** ** Writing records whose text is empty *)

Section EmptyText.

Lemma newlines_app a b : newlines (a ++ b) = (newlines a + newlines b)%nat.
Proof. unfold newlines. now rewrite List.filter_app, length_app. Qed.

Lemma newlines_no_nl s : no_nl s = true -> newlines s = 0%nat.
Proof.
  induction s as [|c s IH]; [reflexivity|]. simpl. intros H.
  apply andb_true_iff in H as [Hc Hs]. apply negb_true_iff in Hc.
  unfold newlines in *. simpl. rewrite Hc. now apply IH.
Qed.

Lemma length_cons_head c ps :
  ps <> [] -> length (cons_head c ps) = length ps.
Proof. now destruct ps. Qed.

(** A string has one line more than it has newlines. *)
Lemma length_split_nl s : length (split_nl s) = S (newlines s).
Proof.
  induction s as [|c s IH]; [reflexivity|]. simpl.
  unfold newlines in *. simpl. destruct (is_nl c); simpl.
  - now rewrite IH.
  - rewrite length_cons_head by apply split_nl_nonnil. exact IH.
Qed.

(** A block with fewer than two newlines is dropped. *)
Lemma parse_block_few_newlines block :
  (newlines block <= 1)%nat -> parse_block block = [].
Proof.
  intros H. unfold parse_block, block_lines.
  rewrite length_split_nl. destruct (strip_infix block) as (a & b & E).
  rewrite E in H. rewrite !newlines_app in H.
  destruct (3 <=? S (newlines (strip block)))%nat eqn:E3; [|reflexivity].
  apply Nat.leb_le in E3. lia.
Qed.

Lemma dropwhile_app_keep {A} (p : A -> bool) a b :
  dropwhile p a <> [] -> dropwhile p (a ++ b) = dropwhile p a ++ b.
Proof.
  induction a as [|c a IH]; [easy|]. simpl.
  destruct (p c); [exact IH | reflexivity].
Qed.

Lemma rstrip_app_keep a b : rstrip b <> [] -> rstrip (a ++ b) = a ++ rstrip b.
Proof.
  intros H. unfold rstrip in *. rewrite rev_app_distr.
  rewrite dropwhile_app_keep.
  - now rewrite rev_app_distr, rev_involutive.
  - intros E. apply H. now rewrite E.
Qed.

Lemma rstrip_nonempty s :
  s <> [] -> head_space s = false -> rstrip s <> [].
Proof.
  intros Hne Hh E. destruct s as [|c s]; [easy|]. simpl in Hh.
  unfold rstrip in E. apply (f_equal (@rev N)) in E.
  rewrite rev_involutive in E. simpl in E.
  assert (H : forallb isspace (rev s ++ [c]) = true).
  { clear -E. induction (rev s ++ [c]) as [|x l IH]; [reflexivity|].
    simpl in *. destruct (isspace x); [now apply IH | discriminate]. }
  rewrite forallb_app in H. apply andb_true_iff in H as [_ H].
  simpl in H. rewrite Hh in H. discriminate.
Qed.

Lemma rstrip_head s :
  s <> [] -> head_space s = false -> head_space (rstrip s) = false.
Proof.
  intros Hne Hh. destruct (rstrip_prefix s) as (d & E).
  pose proof (rstrip_nonempty s Hne Hh) as Hr.
  destruct (rstrip s) as [|c r]; [easy|]. rewrite E in Hh. exact Hh.
Qed.

Lemma block_ok_nn_free s : block_ok s = true -> nn_free s = true.
Proof.
  induction s as [|c s IH]; [reflexivity|]. simpl.
  destruct (is_nl c); simpl; intros H.
  - apply andb_true_iff in H as [H Hok]. apply andb_true_iff in H as [_ Hh].
    now rewrite Hh, IH.
  - now apply IH.
Qed.

Lemma nn_free_block_ok s :
  nn_free s = true -> head_is_nl (rev s) = false -> block_ok s = true.
Proof.
  induction s as [|c s IH]; [reflexivity|]. simpl. intros Hnn Hl.
  apply andb_true_iff in Hnn as [Hc Hnn].
  assert (Hl' : s <> [] -> head_is_nl (rev s) = false).
  { intros Hs. rewrite head_is_nl_app in Hl; [exact Hl|].
    intros E. apply (f_equal (@rev N)) in E. rewrite rev_involutive in E.
    now subst. }
  destruct (is_nl c) eqn:Ec.
  - destruct s as [|d s]; [simpl in Hl; now rewrite Ec in Hl|].
    simpl in Hc. rewrite IH by (try apply Hl'; easy).
    simpl. now rewrite andb_true_r.
  - destruct s as [|d s]; [reflexivity|]. apply IH; [exact Hnn | now apply Hl'].
Qed.

Lemma no_nl_block_ok s : no_nl s = true -> block_ok s = true.
Proof.
  intros H. rewrite <- (app_nil_r s). now apply block_ok_app.
Qed.

(** The two lines of a record without text. *)
Lemma no_nl_head s : no_nl s = true -> head_is_nl s = false.
Proof.
  destruct s as [|c s]; [reflexivity|]. simpl. intros H.
  apply andb_true_iff in H as [H _]. now apply negb_true_iff in H.
Qed.

Lemma two_lines_ok r :
  id_ok (sub_id r) = true -> timestamp_ok (sub_timestamp r) = true ->
  block_ok (sub_id r ++ NL :: sub_timestamp r) = true
  /\ newlines (sub_id r ++ NL :: sub_timestamp r) = 1%nat
  /\ head_space (sub_id r ++ NL :: sub_timestamp r) = false.
Proof.
  unfold id_ok, timestamp_ok. intros Hi Ht.
  apply andb_true_iff in Hi as [Hi Hih]. apply andb_true_iff in Hi as [Hi _].
  apply andb_true_iff in Hi as [Hi0 Hin].
  apply andb_true_iff in Ht as [Ht _]. apply andb_true_iff in Ht as [Ht0 Htn].
  apply negb_true_iff in Hih, Hi0, Ht0.
  repeat split.
  - apply block_ok_app; [exact Hin|]. simpl.
    rewrite Ht0, (no_nl_head _ Htn), (no_nl_block_ok _ Htn). reflexivity.
  - change (NL :: sub_timestamp r) with ([NL] ++ sub_timestamp r).
    rewrite !newlines_app, (newlines_no_nl _ Hin), (newlines_no_nl _ Htn).
    reflexivity.
  - destruct (sub_id r); [discriminate | exact Hih].
Qed.

Lemma re_split_block_run b s' :
  block_ok b = true ->
  re_split_blank_from false (b ++ NL :: NL :: s')
  = b :: re_split_blank_from false (dropwhile is_nl s').
Proof.
  intros Hb. induction b as [|c b IH].
  - simpl. now rewrite re_split_from_true.
  - simpl in *. destruct (is_nl c) eqn:Ec.
    + apply andb_true_iff in Hb as [Hb Hok]. apply andb_true_iff in Hb as [Hne Hh].
      destruct b as [|d b]; [discriminate|].
      apply negb_true_iff in Hh. rewrite head_is_nl_app by easy.
      now rewrite Hh, (IH Hok).
    + now rewrite (IH Hb).
Qed.

Lemma writable_inv r :
  record_writable r = true ->
  id_ok (sub_id r) = true /\ timestamp_ok (sub_timestamp r) = true
  /\ (sub_text r = [] \/ (has_text r = true /\ record_ok r = true)).
Proof.
  unfold record_writable, record_ok, has_text. intros H.
  apply andb_true_iff in H as [H Hx]. apply andb_true_iff in H as [Hi Ht].
  repeat split; try assumption.
  destruct (sub_text r) as [|c t] eqn:E; [now left|]. right.
  simpl in Hx. now rewrite Hi, Ht, Hx.
Qed.

Lemma block_of_empty_text r :
  sub_text r = [] ->
  block_of r = (sub_id r ++ NL :: sub_timestamp r) ++ [NL].
Proof.
  intros E. unfold block_of. rewrite E.
  repeat (rewrite <- app_assoc; simpl). reflexivity.
Qed.

Lemma writable_block_head r :
  record_writable r = true ->
  block_of r <> [] /\ head_space (block_of r) = false.
Proof.
  intros H. apply writable_inv in H as (Hi & _ & _).
  unfold id_ok in Hi. apply andb_true_iff in Hi as [Hi Hh].
  apply andb_true_iff in Hi as [Hi _]. apply andb_true_iff in Hi as [H0 _].
  apply negb_true_iff in H0, Hh. unfold block_of.
  destruct (sub_id r); [discriminate|]. now split.
Qed.

Lemma record_ok_rstrip r :
  record_ok r = true -> rstrip (block_of r) = block_of r.
Proof.
  intros H. pose proof (block_of_strip r H) as E. unfold strip in E.
  now rewrite lstrip_id in E by now apply block_of_head.
Qed.

Lemma trimmed_join_head r rs :
  Forall (fun r => record_writable r = true) (r :: rs) ->
  trimmed_join (r :: rs) <> [] /\ head_space (trimmed_join (r :: rs)) = false.
Proof.
  intros H. destruct (writable_block_head r (Forall_inv H)) as [Hne Hh].
  destruct rs as [|r' rs]; cbn [trimmed_join].
  - split; [now apply rstrip_nonempty | now apply rstrip_head].
  - destruct (block_of r); [easy|]. now split.
Qed.

Lemma rstrip_joined r rs :
  Forall (fun r => record_writable r = true) (r :: rs) ->
  rstrip (join blank (map block_of (r :: rs))) = trimmed_join (r :: rs).
Proof.
  revert r. induction rs as [|r' rs IH]; intros r H; [reflexivity|].
  cbn [map] in *. rewrite join_blank_cons.
  change (block_of r ++ NL :: NL :: join blank (block_of r' :: map block_of rs))
    with (block_of r ++ [NL; NL] ++ join blank (block_of r' :: map block_of rs)).
  rewrite app_assoc.
  pose proof (Forall_inv_tail H) as H'.
  rewrite rstrip_app_keep; rewrite (IH r' H').
  - cbn [trimmed_join]. now rewrite <- app_assoc.
  - apply (trimmed_join_head r' rs H').
Qed.

Lemma strip_written_writable r rs :
  Forall (fun r => record_writable r = true) (r :: rs) ->
  strip (write_content (r :: rs)) = trimmed_join (r :: rs).
Proof.
  intros H. rewrite write_content_join. fold blank.
  destruct (writable_block_head r (Forall_inv H)) as [Hne Hh].
  unfold strip. rewrite lstrip_id.
  - rewrite rstrip_snoc_space by reflexivity. now apply rstrip_joined.
  - destruct rs as [|r' rs]; cbn [map].
    + cbn [join]. destruct (block_of r); [easy | exact Hh].
    + rewrite join_blank_cons. destruct (block_of r); [easy | exact Hh].
Qed.

Lemma parse_trimmed r rs :
  Forall (fun r => record_writable r = true) (r :: rs) ->
  flat_map parse_block (re_split_blank_from false (trimmed_join (r :: rs)))
  = List.filter has_text (r :: rs).
Proof.
  revert r. induction rs as [|r' rs IH]; intros r H.
  - cbn [trimmed_join List.filter].
    destruct (writable_inv r (Forall_inv H)) as (Hi & Ht & [E|[Hx Hok]]).
    + unfold has_text. rewrite E. cbn [is_empty negb].
      rewrite (block_of_empty_text r E), rstrip_snoc_space by reflexivity.
      destruct (two_lines_ok r Hi Ht) as (Hb & Hn & Hh).
      set (b := sub_id r ++ NL :: sub_timestamp r) in *.
      destruct (rstrip_prefix b) as (d & Ed).
      assert (Hb' : block_ok (rstrip b) = true).
      { apply nn_free_block_ok.
        - apply block_ok_nn_free in Hb. rewrite Ed in Hb.
          now apply nn_free_app_l in Hb.
        - pose proof (rstrip_last b) as Hl.
          destruct (rev (rstrip b)) as [|c l]; [reflexivity|]. simpl in *.
          destruct (is_nl c) eqn:Ec; [|reflexivity].
          apply is_nl_space in Ec. congruence. }
      rewrite re_split_single by exact Hb'. cbn [flat_map].
      rewrite parse_block_few_newlines; [reflexivity|].
      rewrite Ed, newlines_app in Hn. lia.
    + rewrite Hx. rewrite record_ok_rstrip by exact Hok.
      rewrite re_split_single by now apply block_of_ok.
      cbn [flat_map]. now rewrite parse_block_of, app_nil_r.
  - pose proof (Forall_inv_tail H) as H'.
    destruct (trimmed_join_head r' rs H') as [Tne Th].
    change (trimmed_join (r :: r' :: rs))
      with (block_of r ++ NL :: NL :: trimmed_join (r' :: rs)).
    change (List.filter has_text (r :: r' :: rs))
      with (if has_text r then r :: List.filter has_text (r' :: rs)
            else List.filter has_text (r' :: rs)).
    rewrite <- (IH r' H').
    destruct (writable_inv r (Forall_inv H)) as (Hi & Ht & [E|[Hx Hok]]).
    + replace (has_text r) with false by (unfold has_text; now rewrite E).
      rewrite (block_of_empty_text r E).
      destruct (two_lines_ok r Hi Ht) as (Hb & Hn & Hh).
      set (b := sub_id r ++ NL :: sub_timestamp r) in *.
      replace ((b ++ [NL]) ++ NL :: NL :: trimmed_join (r' :: rs))
        with (b ++ NL :: NL :: (NL :: trimmed_join (r' :: rs)))
        by (repeat (rewrite <- app_assoc; simpl); reflexivity).
      rewrite re_split_block_run by exact Hb.
      cbn [dropwhile]. change (is_nl NL) with true. cbv iota.
      rewrite dropwhile_id.
      * cbn [flat_map]. rewrite parse_block_few_newlines by lia. reflexivity.
      * apply head_nonspace_nonnl in Th.
        destruct (trimmed_join (r' :: rs)); [easy | exact Th].
    + rewrite Hx. rewrite re_split_block.
      * cbn [flat_map]. now rewrite parse_block_of.
      * now apply block_of_ok.
      * now apply head_nonspace_nonnl.
Qed.

Lemma writable_no_cr rs :
  Forall (fun r => record_writable r = true) rs ->
  no_cr (write_content rs) = true.
Proof.
  intros H. destruct rs as [|r rs]; [reflexivity|].
  rewrite write_content_join. fold blank. rewrite no_cr_app.
  cbn [no_cr forallb CR NL N.eqb negb]. rewrite andb_true_r.
  induction H as [|r0 rs0 Hr Hrs IH]; [reflexivity|].
  assert (Hb : no_cr (block_of r0) = true).
  { destruct (writable_inv r0 Hr) as (Hi & Ht & Hx).
    unfold id_ok, timestamp_ok in *.
    apply andb_true_iff in Hi as [Hi _]. apply andb_true_iff in Hi as [_ Hi].
    apply andb_true_iff in Ht as [_ Ht].
    unfold block_of.
    change (NL :: sub_timestamp r0 ++ NL :: sub_text r0)
      with ([NL] ++ sub_timestamp r0 ++ [NL] ++ sub_text r0).
    rewrite !no_cr_app, Hi, Ht.
    destruct Hx as [->|[_ Hok]]; [reflexivity|].
    apply record_ok_inv in Hok as (_ & _ & _ & Hx & _). now rewrite Hx. }
  destruct rs0 as [|r1 rs1]; [exact Hb|].
  cbn [map] in *. rewrite join_blank_cons.
  change (NL :: NL :: ?x) with ([NL; NL] ++ x).
  rewrite !no_cr_app, Hb, IH. reflexivity.
Qed.

Lemma parse_write_filter (p : platform) (records : list subtitle) :
  Forall (fun r => record_writable r = true) records ->
  parse_srt (write_srt p records) = List.filter has_text records.
Proof.
  intros H. unfold parse_srt, write_srt.
  rewrite read_write_text by now apply writable_no_cr.
  destruct records as [|r rs]; [reflexivity|].
  unfold parse_content, subtitle_blocks, re_split_blank.
  rewrite strip_written_writable by exact H.
  now apply parse_trimmed.
Qed.

End EmptyText.

(** X16: when every record has a well-formed id and timestamp and a
    text that is empty or well-formed, parsing what [write_srt] wrote
    gives back, in order, exactly the records whose text is not empty:
    a record with an empty text is lost, the others are unchanged. *)
Theorem parse_write_drops_empty_text (p : platform) (records : list subtitle) :
  Forall (fun r => record_writable r = true) records ->
  parse_srt (write_srt p records) = List.filter has_text records.
Proof. apply parse_write_filter. Qed.

Lemma parse_write_drops_empty_text_witness :
  Forall (fun r => record_writable r = true)
         [Subtitle (lit "1") (lit "t1") (lit "Hi");
          Subtitle (lit "2") (lit "t2 ") [];
          Subtitle (lit "3") (lit "t3") (lit "Bye")]
  /\ parse_srt (write_srt Posix
         [Subtitle (lit "1") (lit "t1") (lit "Hi");
          Subtitle (lit "2") (lit "t2 ") [];
          Subtitle (lit "3") (lit "t3") (lit "Bye")])
     = List.filter has_text
         [Subtitle (lit "1") (lit "t1") (lit "Hi");
          Subtitle (lit "2") (lit "t2 ") [];
          Subtitle (lit "3") (lit "t3") (lit "Bye")].
Proof.
  split.
  - repeat constructor.
  - apply (parse_write_drops_empty_text Posix). repeat constructor.
Defined.

(** ** From the translation to the written file *)

Lemma translated_records_writable
    (chat : list event -> list N -> list message -> option (list N))
    (subtitles : list nat) model cs bs delay pb w0 :
  0 < bs -> NoDup subtitles ->
  Forall (fun d => record_ok (heap w0 d) = true) subtitles ->
  (forall lg m messages content,
      chat lg m messages = Some content -> answer_ok content = true) ->
  Forall (fun r => record_writable r = true)
    (map (heap (run_world chat subtitles model cs bs delay pb
                  (map (fun k => k * bs)
                       (seqZ 0 (batch_count (Z.of_nat (length subtitles)) bs)))
                  w0))
         subtitles).
Proof.
  intros Hbs Hnd Hok Hchat.
  set (w' := run_world chat subtitles model cs bs delay pb _ w0).
  destruct (calls_ok_run chat subtitles model cs bs delay pb w0 Hbs Hnd)
    as (calls & _ & Hlog & _ & Hcalls). fold w' in Hlog, Hcalls.
  destruct (requests_run chat subtitles model cs bs delay pb w0 Hbs)
    as (calls' & Hlog' & _ & Hfrom & _). cbv zeta in Hlog'. fold w' in Hlog'.
  rewrite Hlog in Hlog'. apply app_inv_head in Hlog'. subst calls'.
  pose proof (same_keys_run chat subtitles model cs bs delay pb w0 Hbs) as Hkeys.
  fold w' in Hkeys.
  apply Forall_forall. intros r Hr. apply in_map_iff in Hr as (d & <- & Hd).
  apply list_elem_of_In, list_elem_of_lookup in Hd as (i & Hi).
  rewrite Forall_forall in Hok.
  assert (Hd : record_ok (heap w0 d) = true).
  { apply Hok. apply list_elem_of_In, list_elem_of_lookup. eauto. }
  destruct (Hcalls (Z.of_nat i)) as (resp & Hc & Ht).
  { apply lookup_lt_Some in Hi. lia. }
  rewrite Nat2Z.id in Hc.
  assert (Ho : obj subtitles (Z.of_nat i) = d).
  { unfold obj. now rewrite Nat2Z.id, Hi. }
  rewrite Ho in Ht.
  destruct (Hkeys d) as [Kid Kts].
  unfold record_ok in Hd. apply andb_true_iff in Hd as [Hd Hx].
  apply andb_true_iff in Hd as [Hid Hts].
  unfold record_writable. rewrite Kid, Kts, Hid, Hts, Ht. cbn [andb].
  destruct resp as [content|]; cbn [outcome].
  - rewrite Forall_forall in Hfrom.
    assert (Hin : In (model, request_of subtitles cs bs (heap w0) (heap w')
                               (Z.of_nat i), Some content) calls).
    { apply list_elem_of_In, list_elem_of_lookup. eauto. }
    destruct (Hfrom _ Hin) as (_ & lg & Hlg). symmetry in Hlg.
    pose proof (Hchat _ _ _ _ Hlg) as Ha. unfold answer_ok in Ha.
    unfold text_ok. rewrite strip_last. cbn [negb]. rewrite andb_true_r.
    exact Ha.
  - rewrite Hx. apply orb_true_r.
Qed.



(** ** Context chunks *)

Section Chunks.

Context {A : Type}.

Lemma getslice_inner (l : list A) a b :
  0 <= a <= b -> b <= Z.of_nat (length l) ->
  getslice l a b = take (Z.to_nat (b - a)) (drop (Z.to_nat a) l).
Proof.
  intros Hab Hb. unfold getslice, slice_bound. cbv zeta.
  assert (Ea : (a <? 0) = false) by lia. assert (Eb : (b <? 0) = false) by lia.
  rewrite Ea, Eb. now rewrite !Z.min_l by lia.
Qed.

Lemma chunk_lookup (subtitles : list A) w (i : nat) :
  (i < length subtitles)%nat ->
  create_context_chunks subtitles w !! i
  = Some (getslice subtitles
            (Z.max 0 (Z.of_nat i - w / 2))
            (Z.min (Z.of_nat (length subtitles)) (Z.of_nat i + w / 2 + 1)),
          Z.of_nat i - Z.max 0 (Z.of_nat i - w / 2)).
Proof.
  intros Hi. unfold create_context_chunks. rewrite list_lookup_fmap.
  unfold range. rewrite lookup_seqZ_lt by lia. reflexivity.
Qed.

Lemma half_nonneg w : 0 <= w -> 0 <= w / 2.
Proof. intros H. apply Z.div_pos; lia. Qed.

End Chunks.

(** X18: for a window size that is not negative,
    [create_context_chunks] returns one chunk per subtitle, and the
    index returned with a chunk is the place of the current subtitle
    in it; that index is at most half the window. *)
Theorem chunk_holds_current {A} (subtitles : list A) (w : Z) :
  0 <= w ->
  length (create_context_chunks subtitles w) = length subtitles
  /\ forall (i : nat) x, subtitles !! i = Some x ->
       exists chunk k,
         create_context_chunks subtitles w !! i = Some (chunk, k)
         /\ 0 <= k <= w / 2
         /\ chunk !! Z.to_nat k = Some x.
Proof.
  intros Hw. pose proof (half_nonneg w Hw) as Hh. split.
  - unfold create_context_chunks. now rewrite length_map, length_range, Z.sub_0_r, Nat2Z.id.
  - intros i x Hx. pose proof (lookup_lt_Some _ _ _ Hx) as Hi.
    eexists _, _. split; [now apply chunk_lookup|]. split; [lia|].
    rewrite getslice_inner by lia.
    rewrite lookup_take_lt by lia. rewrite lookup_drop.
    replace (Z.to_nat (Z.max 0 (Z.of_nat i - w / 2))
             + Z.to_nat (Z.of_nat i - Z.max 0 (Z.of_nat i - w / 2)))%nat
      with i by lia.
    exact Hx.
Qed.

Lemma chunk_holds_current_witness :
  0 <= 3 /\
  length (create_context_chunks [10; 20; 30; 40]%nat 3)
  = length [10; 20; 30; 40]%nat
  /\ forall (i : nat) x, [10; 20; 30; 40]%nat !! i = Some x ->
       exists chunk k,
         create_context_chunks [10; 20; 30; 40]%nat 3 !! i = Some (chunk, k)
         /\ 0 <= k <= 3 / 2
         /\ chunk !! Z.to_nat k = Some x.
Proof.
  split; [lia|]. apply (chunk_holds_current [10; 20; 30; 40]%nat 3). lia.
Defined.

(** X19: for a window size that is not negative, every chunk is a run
    of consecutive subtitles of the list, placed so that the current
    subtitle is at the returned index; it has at least one subtitle
    and at most [2 * (window_size // 2) + 1], which is one more than
    the window when the window size is even. *)
Theorem chunk_is_window {A} (subtitles : list A) (w : Z) (i : nat) chunk k :
  0 <= w ->
  create_context_chunks subtitles w !! i = Some (chunk, k) ->
  exists before after,
    subtitles = before ++ chunk ++ after
    /\ Z.of_nat (length before) = Z.of_nat i - k
    /\ 1 <= Z.of_nat (length chunk) <= 2 * (w / 2) + 1.
Proof.
  intros Hw Hc. pose proof (half_nonneg w Hw) as Hh.
  assert (Hi : (i < length subtitles)%nat).
  { apply lookup_lt_Some in Hc. unfold create_context_chunks in Hc.
    rewrite length_map, length_range in Hc. lia. }
  rewrite chunk_lookup in Hc by exact Hi. injection Hc as <- <-.
  rewrite getslice_inner by lia.
  set (a := Z.to_nat (Z.max 0 (Z.of_nat i - w / 2))).
  set (m := Z.to_nat (Z.min (Z.of_nat (length subtitles)) (Z.of_nat i + w / 2 + 1)
                      - Z.max 0 (Z.of_nat i - w / 2))).
  exists (take a subtitles), (drop m (drop a subtitles)).
  split; [|split].
  - now rewrite (take_drop m), (take_drop a).
  - rewrite length_take. unfold a. lia.
  - rewrite length_take, length_drop. unfold a, m. lia.
Qed.

Lemma chunk_is_window_witness :
  0 <= 2 /\
  create_context_chunks [10; 20; 30; 40]%nat 2 !! 1%nat
  = Some ([10; 20; 30]%nat, 1) /\
  exists before after,
    [10; 20; 30; 40]%nat = before ++ [10; 20; 30]%nat ++ after
    /\ Z.of_nat (length before) = Z.of_nat 1 - 1
    /\ 1 <= Z.of_nat (length [10; 20; 30]%nat) <= 2 * (2 / 2) + 1.
Proof.
  split; [lia|]. split; [reflexivity|].
  apply (chunk_is_window [10; 20; 30; 40]%nat 2 1 [10; 20; 30]%nat 1);
    [lia | reflexivity].
Defined.

(** ** The name of the translated file *)

Section OutputName.

Lemma replace_no_occurrence old new s :
  occurs old s = false -> replace_from old new 0 s = s.
Proof.
  induction s as [|c s IH]; [reflexivity|].
  cbn [occurs]. intros H. apply orb_false_iff in H as [H1 H2].
  cbn [replace_from]. rewrite H1. now rewrite IH.
Qed.

(** An occurrence of ".srt" cannot start in a text without one and end
    in the ".srt" that follows it. *)
Lemma no_straddle t rest :
  t <> [] -> starts_with (lit ".srt") t = false ->
  starts_with (lit ".srt") (t ++ lit ".srt" ++ rest) = false.
Proof.
  change (lit ".srt") with [46; 115; 114; 116]%N.
  intros Hne H. destruct t as [|a [|b [|c [|d t]]]]; [easy| | | |].
  - cbn. now rewrite andb_false_r.
  - cbn. now rewrite !andb_false_r.
  - cbn. now rewrite !andb_false_r.
  - cbn in *. exact H.
Qed.

Lemma replace_first_occurrence a b :
  occurs (lit ".srt") a = false ->
  output_name (a ++ lit ".srt" ++ b) = a ++ lit ".fa.srt" ++ output_name b.
Proof.
  unfold output_name. induction a as [|c a IH]; intros H.
  - reflexivity.
  - cbn [occurs] in H. apply orb_false_iff in H as [H1 H2].
    change ((c :: a) ++ lit ".srt" ++ b) with (c :: (a ++ lit ".srt" ++ b)).
    cbn [replace_from].
    change (c :: (a ++ lit ".srt" ++ b)) with ((c :: a) ++ lit ".srt" ++ b).
    rewrite no_straddle by easy.
    rewrite IH by exact H2. reflexivity.
Qed.

End OutputName.

(** X20: a name in which ".srt" does not occur, such as one with the
    extension in upper case, is offered unchanged: the translation
    gets the name of the upload. *)
Theorem output_name_without_srt original_name :
  occurs (lit ".srt") original_name = false ->
  output_name original_name = original_name.
Proof. apply replace_no_occurrence. Qed.

Lemma output_name_without_srt_witness :
  occurs (lit ".srt") (lit "MOVIE.SRT") = false
  /\ output_name (lit "MOVIE.SRT") = lit "MOVIE.SRT".
Proof.
  split; [reflexivity|]. apply output_name_without_srt. reflexivity.
Defined.

(** X21: the first ".srt" of a name becomes ".fa.srt" and what follows
    it is treated in the same way, so every occurrence is replaced and
    not only the extension; a name that ends with its only ".srt"
    gets the extension ".fa.srt". *)
Theorem output_name_replaces_srt a b :
  occurs (lit ".srt") a = false ->
  output_name (a ++ lit ".srt" ++ b) = a ++ lit ".fa.srt" ++ output_name b
  /\ output_name (a ++ lit ".srt") = a ++ lit ".fa.srt".
Proof.
  intros H. split; [now apply replace_first_occurrence|].
  pose proof (replace_first_occurrence a [] H) as E.
  rewrite !app_nil_r in E. exact E.
Qed.

Lemma output_name_replaces_srt_witness :
  occurs (lit ".srt") (lit "film") = false
  /\ output_name (lit "film" ++ lit ".srt" ++ lit ".bak.srt")
     = lit "film" ++ lit ".fa.srt" ++ output_name (lit ".bak.srt")
  /\ output_name (lit "film" ++ lit ".srt") = lit "film" ++ lit ".fa.srt".
Proof.
  split; [reflexivity|].
  apply (output_name_replaces_srt (lit "film") (lit ".bak.srt")). reflexivity.
Defined.

(** ** White space around and between the blocks *)

Section Spacing.

Lemma dropwhile_all_app {A} (p : A -> bool) ws z :
  forallb p ws = true -> dropwhile p (ws ++ z) = dropwhile p z.
Proof.
  induction ws as [|c ws IH]; [reflexivity|]. simpl. intros H.
  apply andb_true_iff in H as [Hc Hws]. rewrite Hc. now apply IH.
Qed.

Lemma dropwhile_nil_all {A} (p : A -> bool) s :
  dropwhile p s = [] -> forallb p s = true.
Proof.
  induction s as [|c s IH]; [reflexivity|]. simpl.
  destruct (p c); [exact IH | discriminate].
Qed.

Lemma forallb_rev {A} (p : A -> bool) s :
  forallb p s = true -> forallb p (rev s) = true.
Proof.
  intros H. apply forallb_forall. intros x Hx. apply in_rev in Hx.
  rewrite forallb_forall in H. now apply H.
Qed.

Lemma rstrip_app_space z ws :
  forallb isspace ws = true -> rstrip (z ++ ws) = rstrip z.
Proof.
  intros H. unfold rstrip. rewrite rev_app_distr.
  now rewrite dropwhile_all_app by now apply forallb_rev.
Qed.

Lemma rstrip_nil_all s : rstrip s = [] -> forallb isspace s = true.
Proof.
  unfold rstrip. intros E. apply (f_equal (@rev N)) in E.
  rewrite rev_involutive in E. simpl in E.
  apply dropwhile_nil_all, forallb_rev in E. now rewrite rev_involutive in E.
Qed.

Lemma strip_app_space s ws :
  forallb isspace ws = true -> strip (s ++ ws) = strip s.
Proof.
  intros H. unfold strip, lstrip.
  destruct (dropwhile isspace s) as [|c r] eqn:E.
  - apply dropwhile_nil_all in E.
    rewrite dropwhile_all_app by exact E. now rewrite dropwhile_all.
  - rewrite dropwhile_app_keep by now rewrite E.
    rewrite E. now apply rstrip_app_space.
Qed.

Lemma strip_space_app ws s :
  forallb isspace ws = true -> strip (ws ++ s) = strip s.
Proof.
  intros H. unfold strip, lstrip. now rewrite dropwhile_all_app.
Qed.

Lemma re_split_extra_newline b x y :
  re_split_blank_from b (x ++ NL :: NL :: NL :: y)
  = re_split_blank_from b (x ++ NL :: NL :: y).
Proof.
  revert b. induction x as [|c x IH]; intros b.
  - destruct b; reflexivity.
  - cbn [app re_split_blank_from].
    assert (Hh : head_is_nl (x ++ NL :: NL :: NL :: y)
                 = head_is_nl (x ++ NL :: NL :: y)) by now destruct x.
    rewrite Hh, !IH. reflexivity.
Qed.

Lemma re_split_extra_newlines b x k y :
  re_split_blank_from b (x ++ NL :: NL :: repeat NL k ++ y)
  = re_split_blank_from b (x ++ NL :: NL :: y).
Proof.
  induction k as [|k IH]; [reflexivity|].
  cbn [repeat app]. now rewrite re_split_extra_newline.
Qed.

Lemma isspace_newlines k : forallb isspace (repeat NL k) = true.
Proof. induction k as [|k IH]; [reflexivity | exact IH]. Qed.

End Spacing.

(** X22: the blocks of a file may be separated by any number of empty
    lines: further newlines after a blank line change nothing in what
    is parsed. *)
Theorem parse_content_extra_blank_lines x k y :
  parse_content (x ++ NL :: NL :: repeat NL k ++ y)
  = parse_content (x ++ NL :: NL :: y).
Proof.
  unfold parse_content, subtitle_blocks, re_split_blank. f_equal.
  unfold strip, lstrip.
  destruct (dropwhile isspace x) as [|c r] eqn:Ex.
  - apply dropwhile_nil_all in Ex.
    rewrite !dropwhile_all_app by exact Ex.
    change (NL :: NL :: repeat NL k ++ y) with (([NL; NL] ++ repeat NL k) ++ y).
    rewrite dropwhile_all_app
      by (rewrite forallb_app, isspace_newlines; reflexivity).
    reflexivity.
  - rewrite !dropwhile_app_keep by now rewrite Ex.
    rewrite Ex. destruct (rstrip y) as [|d t] eqn:Ey.
    + apply rstrip_nil_all in Ey.
      change ((c :: r) ++ NL :: NL :: repeat NL k ++ y)
        with ((c :: r) ++ ([NL; NL] ++ repeat NL k ++ y)).
      change ((c :: r) ++ NL :: NL :: y) with ((c :: r) ++ ([NL; NL] ++ y)).
      rewrite !rstrip_app_space; [reflexivity| |].
      * rewrite forallb_app, Ey. reflexivity.
      * rewrite !forallb_app, isspace_newlines, Ey. reflexivity.
    + replace ((c :: r) ++ NL :: NL :: repeat NL k ++ y)
        with (((c :: r) ++ NL :: NL :: repeat NL k) ++ y)
        by (repeat (rewrite <- app_assoc; cbn [app]); reflexivity).
      replace ((c :: r) ++ NL :: NL :: y) with (((c :: r) ++ [NL; NL]) ++ y)
        by (repeat (rewrite <- app_assoc; cbn [app]); reflexivity).
      rewrite !rstrip_app_keep by now rewrite Ey.
      repeat (rewrite <- app_assoc; cbn [app]).
      apply (re_split_extra_newlines false (c :: r) k (rstrip y)).
Qed.

(** X23: white space before the first block and after the last one is
    ignored. *)
Theorem parse_content_surrounding_space ws1 s ws2 :
  forallb isspace ws1 = true -> forallb isspace ws2 = true ->
  parse_content (ws1 ++ s ++ ws2) = parse_content s.
Proof.
  intros H1 H2. unfold parse_content, subtitle_blocks.
  now rewrite strip_space_app, strip_app_space.
Qed.

Lemma parse_content_surrounding_space_witness :
  forallb isspace [NL; SP] = true /\ forallb isspace [NL; NL; 9%N] = true
  /\ parse_content ([NL; SP] ++ (lit "1" ++ [NL] ++ lit "t" ++ [NL] ++ lit "Hi")
                    ++ [NL; NL; 9%N])
     = parse_content (lit "1" ++ [NL] ++ lit "t" ++ [NL] ++ lit "Hi").
Proof.
  split; [reflexivity|]. split; [reflexivity|].
  apply parse_content_surrounding_space; reflexivity.
Defined.

(** ** The live preview *)

Section Previews.

Variable chat : list event -> list N -> list message -> option (list N).
Variables (subtitles : list nat) (model : list N) (cs bs : Z) (delay : Q)
          (pb : bool) (w0 : world).
Hypothesis bs_pos : 0 < bs.
Hypothesis distinct : NoDup subtitles.

Lemma previews_app l1 l2 : previews (l1 ++ l2) = previews l1 ++ previews l2.
Proof. unfold previews. apply flat_map_app. Qed.

Lemma previews_item b w i :
  previews (log (item_world chat subtitles model cs pb b w i))
  = previews (log w)
    ++ [(i + 1, Z.of_nat (length subtitles),
         sub_id (heap w (obj subtitles i)),
         sub_timestamp (heap w (obj subtitles i)),
         sub_text (heap w (obj subtitles i)),
         sub_text (heap (item_world chat subtitles model cs pb b w i)
                        (obj subtitles i)))].
Proof.
  unfold item_world. cbn [log heap]. rewrite previews_app. f_equal.
  rewrite fn_lookup_insert. cbn [sub_text set_text].
  destruct (chat _ _ _), pb; reflexivity.
Qed.

Lemma previews_run :
  previews
    (log (run_world chat subtitles model cs bs delay pb
            (map (fun k => k * bs)
                 (seqZ 0 (batch_count (Z.of_nat (length subtitles)) bs)))
            w0))
  = previews (log w0)
    ++ map (preview_of subtitles (heap w0)
              (heap (run_world chat subtitles model cs bs delay pb
                       (map (fun k => k * bs)
                            (seqZ 0 (batch_count (Z.of_nat (length subtitles)) bs)))
                       w0)))
           (seqZ 0 (Z.of_nat (length subtitles))).
Proof.
  apply (run_inv_events chat subtitles model cs bs delay pb bs_pos
    (fun k w =>
       (forall i, k <= i < Z.of_nat (length subtitles) ->
          heap w (obj subtitles i) = heap w0 (obj subtitles i))
       /\ previews (log w)
          = previews (log w0)
            ++ map (preview_of subtitles (heap w0) (heap w)) (seqZ 0 k))).
  - intros k w Hk (Hlater & Hprev).
    destruct (chats_item chat subtitles model cs pb (k / bs * bs) w k)
      as (r & _ & _ & Hheap).
    assert (Hother : forall j, 0 <= j < Z.of_nat (length subtitles) -> j <> k ->
              heap (item_world chat subtitles model cs pb (k / bs * bs) w k)
                   (obj subtitles j)
              = heap w (obj subtitles j)).
    { intros j Hj Hne. rewrite Hheap. apply fn_lookup_insert_ne.
      intros E. apply Hne. symmetry. now apply (obj_inj subtitles k j). }
    split.
    + intros i Hi. rewrite Hother by lia. apply Hlater. lia.
    + rewrite previews_item, Hprev, <- app_assoc. f_equal.
      rewrite (seqZ_app 0 k 1) by lia. rewrite map_app. f_equal.
      * apply map_ext_in. intros j Hj.
        apply list_elem_of_In, elem_of_seqZ in Hj.
        unfold preview_of. now rewrite Hother by lia.
      * rewrite (seqZ_cons (0 + k) 1), seqZ_nil by lia. cbn [map].
        rewrite Z.add_0_l. unfold preview_of.
        now rewrite (Hlater k) by lia.
  - intros i w e He [H1 H2]. split; [exact H1|]. cbn [log heap].
    rewrite previews_app, H2.
    destruct He as [->|[->| ->]]; cbn; now rewrite app_nil_r.
  - split; [reflexivity|]. rewrite (seqZ_nil 0 0) by lia. cbn.
    now rewrite app_nil_r.
Qed.

End Previews.



(** ** A negative delay *)


